(** * Step segmentation helpers ([assets/helpers.py]): a shallow embedding

    The Python module works on pandas objects.  A [Series] is a typed column,
    a [DataFrame] is a row count together with a finite map from column names
    to columns, and every Python exception the code can raise is a value of
    [pyerr] carried by the [result] monad.  Calls are evaluated in Python's
    order (operands left to right, arguments before the call), so the first
    exception met is the one reported. *)

From stdpp Require Import base decidable option list gmap strings.
From Stdlib Require Import ZArith Lia Ascii.

#[local] Open Scope string_scope.
#[local] Open Scope Z_scope.

(** ** Exceptions and the error monad *)

Inductive pyerr : Type :=
  | TypeError
  | KeyError
  | AttributeError
  | IndexError
  | OverflowError.

Inductive result (A : Type) : Type :=
  | Ok (a : A)
  | Err (e : pyerr).
Arguments Ok {A} a.
Arguments Err {A} e.

#[global] Instance pyerr_eq_dec : EqDecision pyerr.
Proof. solve_decision. Defined.

#[global] Instance result_ret : MRet result := fun A a => Ok a.
#[global] Instance result_bind : MBind result := fun A B f r =>
  match r with
  | Ok a => f a
  | Err e => Err e
  end.
#[global] Instance result_fmap : FMap result := fun A B f r =>
  match r with
  | Ok a => Ok (f a)
  | Err e => Err e
  end.

(** ** Cells, columns and tables *)

(** A cell as Python compares it: [True == 1] and [False == 0], so booleans
    and integers share the numeric constructor and equality of cells is
    structural. *)
Inductive cell : Type :=
  | CNum (z : Z)
  | CStr (s : string).

#[global] Instance cell_eq_dec : EqDecision cell.
Proof. solve_decision. Defined.

(** A column holds integers, booleans or strings.  Float columns and missing
    values (NaN) are outside the model: every statement about a column below
    is a statement about a column of one of these three kinds. *)
Inductive Series : Type :=
  | SInt (l : list Z)
  | SBool (l : list bool)
  | SStr (l : list string).

Definition cells (s : Series) : list cell :=
  match s with
  | SInt l => CNum <$> l
  | SBool l => (fun b => CNum (Z.b2z b)) <$> l
  | SStr l => CStr <$> l
  end.

Definition series_len (s : Series) : nat := length (cells s).

Record DataFrame : Type := mkFrame {
  nrows : nat;
  columns : gmap string Series
}.

(** Every column has one entry per row. *)
Definition wf_frame (df : DataFrame) : Prop :=
  map_Forall (fun _ s => series_len s = nrows df) (columns df).

#[global] Instance wf_frame_dec (df : DataFrame) : Decision (wf_frame df).
Proof. unfold wf_frame. apply _. Defined.

(** [df[c]]: a missing column raises [KeyError]. *)
Definition getitem (df : DataFrame) (c : string) : result Series :=
  match columns df !! c with
  | Some s => Ok s
  | None => Err KeyError
  end.

(** [df[c] = s]: replaces the column or adds it. *)
Definition setitem (df : DataFrame) (c : string) (s : Series) : DataFrame :=
  mkFrame (nrows df) (<[c := s]> (columns df)).

(** ** Series operations used by the helpers *)

(** [s == v], element by element. *)
Definition mask_eq (s : Series) (v : cell) : list bool :=
  (fun x => bool_decide (x = v)) <$> cells s.

(** [s.shift(1)]: every entry moves one row down, the first row is missing. *)
Definition shift1 {A} (l : list A) : list (option A) :=
  match l with
  | [] => []
  | _ :: _ => None :: (Some <$> removelast l)
  end.

(** [s.isin(values)].  [values] is a required positional parameter: a call
    that leaves it out raises [TypeError] before anything is compared. *)
Definition isin (s : list (option cell)) (values : option (list cell))
  : result (list bool) :=
  match values with
  | None => Err TypeError
  | Some vs =>
      Ok ((fun o => match o with
                    | Some x => bool_decide (x ∈ vs)
                    | None => false
                    end) <$> s)
  end.

(** [pat in s] on strings. *)
Fixpoint str_contains (pat s : string) : bool :=
  String.prefix pat s ||
  match s with
  | EmptyString => false
  | String _ s' => str_contains pat s'
  end.

(** The [.str] accessor exists on string columns only. *)
Definition str_accessor (s : Series) : result (list string) :=
  match s with
  | SStr l => Ok l
  | _ => Err AttributeError
  end.

(** [s.shift(1).str.contains(pat)]: the missing first entry is not a match
    once the result is combined with [&]. *)
Definition shifted_contains (pat : string) (l : list string) : list bool :=
  (fun o => match o with
            | Some x => str_contains pat x
            | None => false
            end) <$> shift1 l.

Definition series_and (a b : list bool) : list bool := zip_with andb a b.
Definition series_or (a b : list bool) : list bool := zip_with orb a b.
Definition series_not (a : list bool) : list bool := negb <$> a.

(** ** [check_transition] *)

(** <<
    return (
        (ankle_position_actual == 0) & (ankle_position_actual.shift(1).isin())
    ) | (condition.shift(1).str.contains("UNDEFINED")
         & ~condition.str.contains("UNDEFINED"))
    >> *)
Definition check_transition (ankle_position_actual condition : Series)
  : result (list bool) :=
  let at_rest := mask_eq ankle_position_actual (CNum 0) in
  from_prior ← isin (shift1 (cells ankle_position_actual)) None;
  labels ← str_accessor condition;
  let was_undefined := shifted_contains "UNDEFINED" labels in
  let is_undefined := str_contains "UNDEFINED" <$> labels in
  mret (series_or (series_and at_rest from_prior)
                  (series_and was_undefined (series_not is_undefined))).

(** ** [assign_step_number] *)

(** pandas keeps the running count and the step numbers as signed 64-bit
    integers: sums wrap around at [2^63]. *)
Definition int64_min : Z := Eval cbv in - 2 ^ 63.
Definition int64_max : Z := Eval cbv in 2 ^ 63 - 1.

Definition in_int64 (z : Z) : Prop := int64_min ≤ z ≤ int64_max.

#[global] Instance in_int64_dec (z : Z) : Decision (in_int64 z).
Proof. unfold in_int64. apply _. Defined.

Definition wrap64 (z : Z) : Z := (z - int64_min) mod 2 ^ 64 + int64_min.

(** [s.cumsum()] on a boolean column: the running count of [True], as an
    int64 column. *)
Fixpoint cumsum_from (acc : Z) (l : list bool) : list Z :=
  match l with
  | [] => []
  | b :: l' =>
      let acc' := wrap64 (acc + Z.b2z b) in acc' :: cumsum_from acc' l'
  end.

Definition cumsum (l : list bool) : list Z := cumsum_from 0 l.

(** [s + n] for an int64 column [s] and a Python integer [n]: an [n] that
    is no int64 raises [OverflowError], and the sums wrap around. *)
Definition series_add (s : list Z) (n : Z) : result (list Z) :=
  if decide (in_int64 n) then Ok ((fun c => wrap64 (c + n)) <$> s)
  else Err OverflowError.

(** [return transition.cumsum() + step_number] *)
Definition assign_step_number (transition : list bool) (step_number : Z)
  : result (list Z) :=
  series_add (cumsum transition) step_number.

(** Number of [True] entries of a boolean sequence. *)
Definition count_true (l : list bool) : Z :=
  Z.of_nat (length (filter (fun b => b = true) l)).

(** ** Pieces of [check_step_completeness] *)

(** [s.unique()]: the distinct values in order of first appearance. *)
Fixpoint unique_from {A} `{EqDecision A} (seen l : list A) : list A :=
  match l with
  | [] => []
  | x :: l' =>
      if decide (x ∈ seen) then unique_from seen l'
      else x :: unique_from (x :: seen) l'
  end.

Definition unique {A} `{EqDecision A} (l : list A) : list A :=
  unique_from [] l.

(** [s.nunique()] *)
Definition nunique {A} `{EqDecision A} (l : list A) : nat :=
  length (unique l).

(** Boolean-mask indexing [s[mask]]. *)
Fixpoint select {A} (mask : list bool) (l : list A) : list A :=
  match mask, l with
  | m :: mask', x :: l' =>
      if m then x :: select mask' l' else select mask' l'
  | _, _ => []
  end.

Definition select_series (mask : list bool) (s : Series) : Series :=
  match s with
  | SInt l => SInt (select mask l)
  | SBool l => SBool (select mask l)
  | SStr l => SStr (select mask l)
  end.

(** [df[mask]] *)
Definition filter_rows (mask : list bool) (df : DataFrame) : DataFrame :=
  mkFrame (length (filter (fun b => b = true) mask))
          (select_series mask <$> columns df).

(** [df.loc[mask, "step_complete"] = v] on the working column. *)
Definition loc_assign (mask : list bool) (v : bool) (col : list bool)
  : list bool :=
  zip_with (fun (m old : bool) => if m then v else old) mask col.

(** The Python values met while line 129 computes its row position. *)
Inductive pyval : Type :=
  | PyInt (z : Z)
  | PyStr (s : string).

(** [a - b]: defined between integers, [TypeError] for a string operand. *)
Definition py_sub (a b : pyval) : result pyval :=
  match a, b with
  | PyInt x, PyInt y => Ok (PyInt (x - y))
  | _, _ => Err TypeError
  end.

(** The object behind [df.iloc]: pandas builds it from the accessor's own
    name and the frame, and [name] is that accessor name. *)
Record indexer : Type := mkIndexer {
  name : string;
  obj : DataFrame
}.

Definition iloc (df : DataFrame) : indexer := mkIndexer "iloc" df.

(** [df.iloc[k]]: the row at position [k], counted from the end when [k]
    is negative. *)
Definition iloc_getitem (df : DataFrame) (k : pyval)
  : result (gmap string cell) :=
  match k with
  | PyStr _ => Err TypeError
  | PyInt z =>
      let i := if bool_decide (z < 0) then z + Z.of_nat (nrows df) else z in
      if bool_decide (0 ≤ i < Z.of_nat (nrows df)) then
        Ok (omap (fun s => cells s !! Z.to_nat i) (columns df))
      else Err IndexError
  end.

(** [row.attr] *)
Definition getattr (row : gmap string cell) (attr : string) : result cell :=
  match row !! attr with
  | Some c => Ok c
  | None => Err AttributeError
  end.

(** [pat in c] *)
Definition py_in (pat : string) (c : cell) : result bool :=
  match c with
  | CStr s => Ok (str_contains pat s)
  | CNum _ => Err TypeError
  end.

(** [~b] on a Python [bool] is integer complement: [-2] or [-1]. *)
Definition py_invert (b : bool) : Z := Z.lnot (Z.b2z b).

Definition truthy (z : Z) : bool := negb (Z.eqb z 0).

(** [(a == b).all()] on arrays of one length. *)
Definition array_eq_all (a b : list cell) : bool :=
  forallb id (zip_with (fun x y => bool_decide (x = y)) a b).

(** The table as the loop sees it: the caller's columns plus the working
    column ['step_complete']. *)
Definition with_working (df : DataFrame) (work : list bool) : DataFrame :=
  setitem df "step_complete" (SBool work).

(** [df[df[step_number_col] == step][ankle_position_col]] *)
Definition group_codes (cur : DataFrame)
    (step_number_col ankle_position_col : string) (step : cell)
  : result (list cell) :=
  s ← getitem cur step_number_col;
  p ← getitem cur ankle_position_col;
  mret (select (mask_eq s step) (cells p)).

(** [df.loc[df[step_number_col] == step, "step_complete"] = False] *)
Definition mark_incomplete (cur : DataFrame) (step_number_col : string)
    (step : cell) (work : list bool) : result (list bool) :=
  s ← getitem cur step_number_col;
  mret (loc_assign (mask_eq s step) false work).

(** One iteration of the [for step in ...] loop, lines 126 to 130. *)
Definition visit_step (df : DataFrame)
    (step_number_col ankle_position_col : string)
    (step : cell) (work : list bool) : result (list bool) :=
  let cur := with_working df work in
  codes ← group_codes cur step_number_col ankle_position_col step;
  if bool_decide (nunique codes < 3)%nat then
    mark_incomplete cur step_number_col step work
  else
    codes ← group_codes cur step_number_col ankle_position_col step;
    if bool_decide (nunique codes = 3%nat) then
      codes ← group_codes cur step_number_col ankle_position_col step;
      let not_123 :=
        negb (array_eq_all (unique codes) [CNum 1; CNum 2; CNum 3]) in
      s ← getitem cur step_number_col;
      let first_step := filter_rows (mask_eq s (CNum 1)) cur in
      k ← py_sub (PyStr (name (iloc first_step))) (PyInt 1);
      row ← iloc_getitem cur k;
      label ← getattr row "condition";
      found ← py_in "UNDEFINED" label;
      if truthy (Z.lor (Z.b2z not_123) (py_invert found)) then
        mark_incomplete cur step_number_col step work
      else mret work
    else mret work.

Fixpoint visit_steps (df : DataFrame)
    (step_number_col ankle_position_col : string)
    (steps : list cell) (work : list bool) : result (list bool) :=
  match steps with
  | [] => mret work
  | step :: steps' =>
      work' ← visit_step df step_number_col ankle_position_col step work;
      visit_steps df step_number_col ankle_position_col steps' work'
  end.

(** ** [check_step_completeness]

    The function writes the working column into the table it is given and
    returns that column; the result is the table after the call together
    with the returned flags. *)
Definition check_step_completeness (df : DataFrame)
    (step_number_col ankle_position_col : string)
  : result (DataFrame * list bool) :=
  let work := replicate (nrows df) true in
  s ← getitem (with_working df work) step_number_col;
  work ← visit_steps df step_number_col ankle_position_col
                     (unique (cells s)) work;
  mret (with_working df work, work).

(** ** [process_steps]

    [df.copy()] hands the checker a table of its own, so the table the
    checker leaves behind is dropped and only the flags are stored. *)
Definition process_steps (df : DataFrame)
    (ankle_position_col_left ankle_position_col_right condition_col : string)
  : result DataFrame :=
  pos_l ← getitem df ankle_position_col_left;
  cond ← getitem df condition_col;
  transition_left ← check_transition pos_l cond;
  let df := setitem df "transition_left" (SBool transition_left) in
  pos_r ← getitem df ankle_position_col_right;
  cond ← getitem df condition_col;
  transition_right ← check_transition pos_r cond;
  let df := setitem df "transition_right" (SBool transition_right) in
  step_number_l ← assign_step_number transition_left 0;
  let df := setitem df "step_number_l" (SInt step_number_l) in
  step_number_r ← assign_step_number transition_right 0;
  let df := setitem df "step_number_r" (SInt step_number_r) in
  left ← check_step_completeness df "step_number_l" ankle_position_col_left;
  let df := setitem df "step_complete_l" (SBool left.2) in
  right ← check_step_completeness df "step_number_r" ankle_position_col_right;
  let df := setitem df "step_complete_r" (SBool right.2) in
  mret df.

(** ** Sample tables *)

(** A table with a step-number column, a position column and the condition
    column, under the names the left leg uses. *)
Definition frame_of (steps codes : list Z) (labels : list string) : DataFrame :=
  mkFrame (length steps)
          (<["step_number_l" := SInt steps]>
             (<["ankle_position_left" := SInt codes]>
                (<["condition" := SStr labels]> ∅))).

Definition flags_of (df : DataFrame) : result (list bool) :=
  snd <$> check_step_completeness df "step_number_l" "ankle_position_left".

(** A short recording: both ankles, four samples of one activity. *)
Definition gait_sample : DataFrame :=
  mkFrame 4
          (<["ankle_position_left" := SInt [1; 2; 3; 0]]>
             (<["ankle_position_right" := SInt [3; 0; 1; 2]]>
                (<["condition" := SStr ["transparent_WALKING";
                                        "transparent_WALKING";
                                        "transparent_WALKING";
                                        "transparent_WALKING"]]> ∅))).

(** ** Vocabulary of the statements *)

(** The position cells of the rows whose step cell is [step], and how many
    distinct values they hold. *)
Definition codes_of_step (S P : Series) (step : cell) : list cell :=
  select (mask_eq S step) (cells P).

Definition distinct_codes (S P : Series) (step : cell) : nat :=
  nunique (codes_of_step S P step).

(** Some step of the column has exactly three distinct codes. *)
Definition has_three (S P : Series) : bool :=
  existsb (fun t => bool_decide (distinct_codes S P t = 3%nat))
          (unique (cells S)).

(** One flag per row: the row's step has three distinct codes or more. *)
Definition complete_flags (S P : Series) : list bool :=
  (fun s => negb (bool_decide (distinct_codes S P s < 3)%nat)) <$> cells S.

(** A step among [steps] that equals [s] and has fewer than three codes. *)
Definition lowered (S P : Series) (steps : list cell) (s : cell) : bool :=
  existsb (fun t => bool_decide (s = t)
                    && bool_decide (distinct_codes S P t < 3)%nat) steps.

(** ** Label tables and [format_activity] *)

(** [class Activity(IntEnum)]: every member has a name and an integer value. *)
Inductive Activity : Type :=
  | WALKING
  | RAMPS_UP
  | RAMPS_DOWN
  | STAIRS_UP
  | STAIRS_DOWN
  | UNDEFINED.

Definition Activity_name (a : Activity) : string :=
  match a with
  | WALKING => "WALKING"
  | RAMPS_UP => "RAMPS_UP"
  | RAMPS_DOWN => "RAMPS_DOWN"
  | STAIRS_UP => "STAIRS_UP"
  | STAIRS_DOWN => "STAIRS_DOWN"
  | UNDEFINED => "UNDEFINED"
  end.

Definition Activity_value (a : Activity) : Z :=
  match a with
  | WALKING => 1
  | RAMPS_UP => 2
  | RAMPS_DOWN => 3
  | STAIRS_UP => 4
  | STAIRS_DOWN => 5
  | UNDEFINED => 6
  end.

(** The members in definition order, as iterating the class yields them. *)
Definition Activity_members : list Activity :=
  [WALKING; RAMPS_UP; RAMPS_DOWN; STAIRS_UP; STAIRS_DOWN; UNDEFINED].

#[global] Instance Activity_eq_dec : EqDecision Activity.
Proof. solve_decision. Defined.

(** The dictionary literal [condition_mapping]; its keys are distinct. *)
Definition condition_mapping : gmap string Z :=
  list_to_map
    [("transparent_UNDEFINED", 0);
     ("transparent_WALKING", 1);
     ("SM_UNDEFINED", 0);
     ("SM_WALKING", 1);
     ("transparent_RAMPS_UP", 2);
     ("transparent_RAMPS_DOWN", 3);
     ("SM_RAMPS_DOWN", 3);
     ("SM_RAMPS_UP", 2);
     ("SM_STAIRS_UP", 4);
     ("SM_STAIRS_DOWN", 5);
     ("transparent_STAIRS_UP", 4);
     ("transparent_STAIRS_DOWN", 5)].

Definition order : list string :=
  ["transparent_WALKING"; "SM_WALKING";
   "transparent_RAMPS_UP"; "SM_RAMPS_UP";
   "transparent_RAMPS_DOWN"; "SM_RAMPS_DOWN";
   "transparent_STAIRS_UP"; "SM_STAIRS_UP";
   "transparent_STAIRS_DOWN"; "SM_STAIRS_DOWN"].

Definition color_mapping : gmap string string :=
  list_to_map [("transparent", "tab:blue"); ("SM", "tab:orange")].

(** [[color for pair in zip(light_palette, dark_palette) for color in pair]].
    The two palettes come from seaborn and are parameters here. *)
Definition custom_palette {A} (light_palette dark_palette : list A) : list A :=
  pair ← zip light_palette dark_palette; [pair.1; pair.2].

(** Characters of ASCII text, the alphabet of the activity names. *)
Definition is_upper (c : Ascii.ascii) : bool :=
  let n := Ascii.nat_of_ascii c in (65 <=? n)%nat && (n <=? 90)%nat.

Definition is_lower (c : Ascii.ascii) : bool :=
  let n := Ascii.nat_of_ascii c in (97 <=? n)%nat && (n <=? 122)%nat.

(** A cased character is a letter. *)
Definition is_cased (c : Ascii.ascii) : bool := is_upper c || is_lower c.

Definition to_upper (c : Ascii.ascii) : Ascii.ascii :=
  if is_lower c then Ascii.ascii_of_nat (Ascii.nat_of_ascii c - 32) else c.

Definition to_lower (c : Ascii.ascii) : Ascii.ascii :=
  if is_upper c then Ascii.ascii_of_nat (Ascii.nat_of_ascii c + 32) else c.

(** The model of the string methods is that of ASCII text. *)
Definition ascii_text (s : string) : Prop :=
  Forall (fun c => (Ascii.nat_of_ascii c < 128)%nat) (String.list_ascii_of_string s).

#[global] Instance ascii_text_dec (s : string) : Decision (ascii_text s).
Proof. unfold ascii_text. apply _. Defined.

(** [s.replace(old, new)] for one-character [old] and [new]. *)
Fixpoint replace_char (old new : Ascii.ascii) (s : string) : string :=
  match s with
  | EmptyString => EmptyString
  | String c s' =>
      String (if Ascii.eqb c old then new else c) (replace_char old new s')
  end.

(** [s.title()]: a character that follows a cased character is lowered,
    any other character is raised. *)
Fixpoint title_from (previous_is_cased : bool) (s : string) : string :=
  match s with
  | EmptyString => EmptyString
  | String c s' =>
      String (if previous_is_cased then to_lower c else to_upper c)
             (title_from (is_cased c) s')
  end.

Definition title (s : string) : string := title_from false s.

(** [s.lower()] and [s.upper()] *)
Fixpoint lower (s : string) : string :=
  match s with
  | EmptyString => EmptyString
  | String c s' => String (to_lower c) (lower s')
  end.

Fixpoint upper (s : string) : string :=
  match s with
  | EmptyString => EmptyString
  | String c s' => String (to_upper c) (upper s')
  end.

(** <<
    formatted_activity = activity.replace("_", " ")
    formatted_activity = formatted_activity.title()
    return formatted_activity
    >> *)
Definition format_activity (activity : string) : string :=
  let formatted_activity := replace_char "_"%char " "%char activity in
  let formatted_activity := title formatted_activity in
  formatted_activity.

(** No character of [s] is an underscore. *)
Definition underscore_free (s : string) : Prop :=
  Forall (fun c => Ascii.eqb c "_" = false) (String.list_ascii_of_string s).

(** * Properties *)

(** ** The error monad *)

Lemma bind_ok {A B} (a : A) (f : A → result B) : (Ok a ≫= f) = f a.
Proof. reflexivity. Qed.

Lemma bind_err {A B} (e : pyerr) (f : A → result B) : (Err e ≫= f) = Err e.
Proof. reflexivity. Qed.

(** ** [check_transition] *)

(** The call [isin()] stops every evaluation of the function. *)
Lemma check_transition_raises (ankle_position_actual condition : Series) :
  check_transition ankle_position_actual condition = Err TypeError.
Proof. reflexivity. Qed.

(** ** [assign_step_number] *)

Lemma count_true_cons (b : bool) (l : list bool) :
  count_true (b :: l) = Z.b2z b + count_true l.
Proof.
  unfold count_true. destruct b.
  - rewrite filter_cons_True by done. cbn [length Z.b2z]. lia.
  - rewrite filter_cons_False by done. cbn [Z.b2z]. lia.
Qed.

Lemma count_true_nonneg (l : list bool) : 0 ≤ count_true l.
Proof. unfold count_true. lia. Qed.

Lemma count_true_app (l1 l2 : list bool) :
  count_true (l1 ++ l2)%list = count_true l1 + count_true l2.
Proof.
  unfold count_true. rewrite filter_app, length_app. lia.
Qed.

Lemma count_true_take_le (t : list bool) (n : nat) :
  count_true (take n t) ≤ count_true t.
Proof.
  rewrite <- (take_drop n t) at 2. rewrite count_true_app.
  pose proof (count_true_nonneg (drop n t)). lia.
Qed.

Lemma count_true_take_S (t : list bool) (i : nat) :
  count_true (take (S i) t) ≤ count_true (take (S (S i)) t).
Proof.
  revert i. induction t as [|b t IH]; intros i; [by rewrite !take_nil|].
  rewrite (firstn_cons (S i) b t), (firstn_cons i b t), !count_true_cons.
  destruct i as [|i].
  - rewrite take_0. pose proof (count_true_nonneg (take 1 t)).
    unfold count_true at 1. cbn [filter length]. simpl. lia.
  - specialize (IH i). lia.
Qed.

Lemma wrap64_in_int64 (z : Z) : in_int64 z → wrap64 z = z.
Proof.
  unfold in_int64, wrap64, int64_min, int64_max. intros Hz.
  rewrite Z.mod_small; lia.
Qed.

Lemma in_int64_wrap64 (z : Z) : in_int64 (wrap64 z).
Proof.
  unfold in_int64, wrap64, int64_min, int64_max.
  pose proof (Z.mod_pos_bound (z - -9223372036854775808) (2 ^ 64)
                              ltac:(done)).
  change (2 ^ 64) with 18446744073709551616 in *. lia.
Qed.

Lemma wrap64_add_l (a c : Z) : wrap64 (wrap64 a + c) = wrap64 (a + c).
Proof.
  unfold wrap64. f_equal.
  replace ((a - int64_min) mod 2 ^ 64 + int64_min + c - int64_min)
    with ((a - int64_min) mod 2 ^ 64 + c) by lia.
  rewrite Zplus_mod_idemp_l. f_equal. lia.
Qed.

Lemma length_cumsum_from (acc : Z) (l : list bool) :
  length (cumsum_from acc l) = length l.
Proof. revert acc. induction l as [|b l IH]; intros acc; cbn; [done|]. by rewrite IH. Qed.

(** The running count is the count of [True] so far, modulo the wrap. *)
Lemma lookup_cumsum_from (l : list bool) : ∀ (acc : Z) (i : nat),
  (i < length l)%nat →
  cumsum_from acc l !! i = Some (wrap64 (acc + count_true (take (S i) l))).
Proof.
  induction l as [|b l IH]; intros acc i Hi; cbn in Hi; [lia|].
  destruct i as [|i].
  - cbn. rewrite take_0, count_true_cons. unfold count_true. cbn.
    by rewrite Z.add_0_r.
  - cbn [cumsum_from lookup list_lookup].
    rewrite IH by lia. f_equal.
    rewrite (firstn_cons (S i) b l), (count_true_cons b).
    rewrite wrap64_add_l. f_equal. lia.
Qed.

Lemma lookup_series_add_cumsum (t : list bool) (k : Z) (i : nat) :
  (i < length t)%nat →
  ((fun c => wrap64 (c + k)) <$> cumsum t) !! i
  = Some (wrap64 (k + count_true (take (S i) t))).
Proof.
  intros Hi. unfold cumsum.
  rewrite list_lookup_fmap, lookup_cumsum_from by done.
  cbn. rewrite wrap64_add_l. f_equal. f_equal. lia.
Qed.

(** What a returning call hands back: one number per sample, the start
    plus the count of transitions so far, modulo the wrap. *)
Lemma assign_step_number_inv (t : list bool) (k : Z) (steps : list Z) :
  assign_step_number t k = Ok steps →
  in_int64 k
  ∧ length steps = length t
  ∧ ∀ i : nat, (i < length t)%nat →
      steps !! i = Some (wrap64 (k + count_true (take (S i) t))).
Proof.
  unfold assign_step_number, series_add.
  destruct (decide (in_int64 k)) as [Hk|Hk]; [|done].
  intros [= <-]. split; [done|]. split.
  - unfold cumsum. by rewrite length_fmap, length_cumsum_from.
  - intros i Hi. by apply lookup_series_add_cumsum.
Qed.

Lemma assign_step_number_returns (t : list bool) (k : Z) :
  in_int64 k → ∃ steps, assign_step_number t k = Ok steps.
Proof.
  intros Hk. unfold assign_step_number, series_add.
  rewrite decide_True by done. by eexists.
Qed.

(** Without overflow the wrap is not felt. *)
Lemma assign_step_number_exact (t : list bool) (k : Z) :
  in_int64 k → in_int64 (k + count_true t) →
  ∃ steps, assign_step_number t k = Ok steps
           ∧ length steps = length t
           ∧ ∀ i : nat, (i < length t)%nat →
               steps !! i = Some (k + count_true (take (S i) t)).
Proof.
  intros Hk Hend.
  destruct (assign_step_number_returns t k Hk) as [steps Hsteps].
  exists steps. split; [done|].
  destruct (assign_step_number_inv t k steps Hsteps) as (_ & Hlen & Hget).
  split; [done|]. intros i Hi. rewrite Hget by done. f_equal.
  apply wrap64_in_int64.
  pose proof (count_true_nonneg (take (S i) t)).
  pose proof (count_true_take_le t (S i)).
  unfold in_int64 in *. lia.
Qed.

(** ** [unique], [nunique] and mask indexing *)

Lemma elem_of_unique_from {A} `{EqDecision A} (l : list A) :
  ∀ (seen : list A) (x : A), x ∈ unique_from seen l ↔ x ∈ l ∧ x ∉ seen.
Proof.
  induction l as [|y l IH]; intros seen x; cbn.
  - split; [by intros ?%elem_of_nil | by intros [?%elem_of_nil _]].
  - destruct (decide (y ∈ seen)) as [Hy|Hy].
    + rewrite IH, elem_of_cons. split; [tauto|].
      intros [[->|?] ?]; [done|tauto].
    + rewrite elem_of_cons, IH, !elem_of_cons. split.
      * intros [->|[? Hn]]; [tauto|]. split; [tauto|]. tauto.
      * intros [[->|?] ?]; [tauto|].
        destruct (decide (x = y)) as [->|]; [tauto|]. right. tauto.
Qed.

Lemma elem_of_unique {A} `{EqDecision A} (l : list A) (x : A) :
  x ∈ unique l ↔ x ∈ l.
Proof.
  unfold unique. rewrite elem_of_unique_from. split; [tauto|].
  intros ?. split; [done|]. by intros ?%elem_of_nil.
Qed.

Lemma NoDup_unique_from {A} `{EqDecision A} (l : list A) :
  ∀ seen : list A, NoDup (unique_from seen l).
Proof.
  induction l as [|y l IH]; intros seen; cbn; [constructor|].
  destruct (decide (y ∈ seen)); [apply IH|].
  constructor; [|apply IH].
  rewrite elem_of_unique_from, elem_of_cons. tauto.
Qed.

Lemma NoDup_unique {A} `{EqDecision A} (l : list A) : NoDup (unique l).
Proof. apply NoDup_unique_from. Qed.

Lemma unique_from_fmap {A B} `{EqDecision A} `{EqDecision B}
    (f : A → B) `{!Inj (=) (=) f} (l : list A) :
  ∀ seen : list A, unique_from (f <$> seen) (f <$> l) = f <$> unique_from seen l.
Proof.
  induction l as [|y l IH]; intros seen; cbn; [done|].
  destruct (decide (y ∈ seen)) as [Hy|Hy].
  - rewrite decide_True by (by apply list_elem_of_fmap_2). apply IH.
  - rewrite decide_False by (by intros ?%(list_elem_of_fmap_inj f)).
    cbn. f_equal. apply (IH (y :: seen)).
Qed.

Lemma nunique_fmap {A B} `{EqDecision A} `{EqDecision B}
    (f : A → B) `{!Inj (=) (=) f} (l : list A) :
  nunique (f <$> l) = nunique l.
Proof.
  unfold nunique, unique.
  change (@nil B) with (f <$> @nil A).
  by rewrite unique_from_fmap, length_fmap.
Qed.

Lemma select_fmap {A B} (f : A → B) (mask : list bool) :
  ∀ l : list A, select mask (f <$> l) = f <$> select mask l.
Proof.
  induction mask as [|m mask IH]; intros [|x l]; cbn; try done.
  destruct m; cbn; by rewrite IH.
Qed.

Lemma existsb_ext_all {A} (f g : A → bool) (l : list A) :
  (∀ x, f x = g x) → existsb f l = existsb g l.
Proof. intros E. induction l as [|x l IH]; cbn; [done|]. by rewrite E, IH. Qed.

Lemma existsb_elem_of {A} (f : A → bool) (l : list A) :
  existsb f l = true ↔ ∃ x, x ∈ l ∧ f x = true.
Proof.
  rewrite existsb_exists. split; intros (x & Hx & Hf); exists x.
  - by rewrite list_elem_of_In.
  - by rewrite <- list_elem_of_In.
Qed.

(** ** The working column *)

Lemma getitem_with_working_ne (df : DataFrame) (work : list bool) (c : string) :
  c ≠ "step_complete" →
  getitem (with_working df work) c = getitem df c.
Proof.
  intros Hc. unfold getitem, with_working, setitem. cbn.
  by rewrite lookup_insert_ne.
Qed.

Lemma length_loc_assign (mask : list bool) (v : bool) (col : list bool) :
  length mask = length col → length (loc_assign mask v col) = length col.
Proof. intros E. unfold loc_assign. rewrite length_zip_with. lia. Qed.

(** ** The loop of [check_step_completeness] *)

Section completeness.
Context (df : DataFrame) (step_number_col ankle_position_col : string).
Context (S P : Series).
Hypothesis step_col : columns df !! step_number_col = Some S.
Hypothesis position_col : columns df !! ankle_position_col = Some P.
Hypothesis step_not_working : step_number_col ≠ "step_complete".
Hypothesis position_not_working : ankle_position_col ≠ "step_complete".

Lemma group_codes_working (work : list bool) (step : cell) :
  group_codes (with_working df work) step_number_col ankle_position_col step
  = Ok (codes_of_step S P step).
Proof.
  unfold group_codes.
  rewrite !getitem_with_working_ne by done.
  unfold getitem. by rewrite step_col, position_col.
Qed.

Lemma mark_incomplete_working (work : list bool) (step : cell) :
  mark_incomplete (with_working df work) step_number_col step work
  = Ok (loc_assign (mask_eq S step) false work).
Proof.
  unfold mark_incomplete.
  rewrite getitem_with_working_ne by done.
  unfold getitem. by rewrite step_col.
Qed.

(** One iteration: fewer than three codes lowers the step's rows, exactly
    three codes raises, more than three leaves the column alone. *)
Lemma visit_step_cases (step : cell) (work : list bool) :
  visit_step df step_number_col ankle_position_col step work =
  if bool_decide (distinct_codes S P step < 3)%nat then
    Ok (loc_assign (mask_eq S step) false work)
  else if bool_decide (distinct_codes S P step = 3%nat) then Err TypeError
  else Ok work.
Proof.
  unfold visit_step. rewrite !group_codes_working. cbn [mbind result_bind].
  fold (distinct_codes S P step).
  case_bool_decide; [apply mark_incomplete_working|].
  case_bool_decide; [|done].
  rewrite getitem_with_working_ne by done.
  unfold getitem. rewrite step_col. reflexivity.
Qed.

Lemma lowered_cons (t : cell) (steps : list cell) (s : cell) :
  lowered S P (t :: steps) s =
  (bool_decide (s = t) && bool_decide (distinct_codes S P t < 3)%nat)
  || lowered S P steps s.
Proof. reflexivity. Qed.

Lemma zip_with_loc_assign (g : cell → bool) (t : cell) (L : list cell) :
  ∀ W : list bool,
  zip_with (fun s w => if g s then false else w) L
    (loc_assign ((fun x => bool_decide (x = t)) <$> L) false W)
  = zip_with (fun s w => if bool_decide (s = t) || g s then false else w) L W.
Proof.
  induction L as [|x L IH]; intros [|w W]; cbn; try done.
  f_equal; [|apply IH].
  destruct (bool_decide (x = t)), (g x); done.
Qed.

(** Without a step of three codes the loop runs to its end. *)
Lemma visit_steps_returns (steps : list cell) : ∀ work : list bool,
  Forall (fun t => distinct_codes S P t ≠ 3%nat) steps →
  length work = length (cells S) →
  visit_steps df step_number_col ankle_position_col steps work
  = Ok (zip_with (fun s w => if lowered S P steps s then false else w)
                 (cells S) work).
Proof.
  induction steps as [|t steps IH]; intros work Hno Hlen; cbn [visit_steps].
  - cbn. f_equal. symmetry.
    clear -Hlen. revert work Hlen.
    induction (cells S) as [|x L IH]; intros [|w W] E; cbn in *; try done.
    f_equal. apply IH. lia.
  - apply Forall_cons in Hno as [Ht Hno].
    rewrite visit_step_cases.
    case_bool_decide as Hlt.
    + cbn [mbind result_bind]. rewrite IH; [|done|].
      * f_equal. unfold mask_eq. rewrite zip_with_loc_assign.
        apply zip_with_ext; [|done..]. intros s w.
        rewrite lowered_cons. rewrite (bool_decide_eq_true_2 _ Hlt).
        by rewrite andb_true_r.
      * rewrite length_loc_assign; [done|].
        unfold mask_eq. by rewrite length_fmap.
    + rewrite bool_decide_eq_false_2 by done.
      cbn [mbind result_bind]. rewrite IH by done.
      f_equal. apply zip_with_ext; [|done..]. intros s w.
      rewrite lowered_cons. rewrite (bool_decide_eq_false_2 _ Hlt).
      by rewrite andb_false_r.
Qed.

(** A step of three codes stops the loop with [TypeError]. *)
Lemma visit_steps_raises (steps : list cell) : ∀ work : list bool,
  Exists (fun t => distinct_codes S P t = 3%nat) steps →
  visit_steps df step_number_col ankle_position_col steps work
  = Err TypeError.
Proof.
  induction steps as [|t steps IH]; intros work Hex.
  - by apply Exists_nil in Hex.
  - cbn [visit_steps]. rewrite visit_step_cases.
    case_bool_decide as Hlt.
    + cbn [mbind result_bind]. apply IH.
      apply Exists_cons in Hex as [Ht|Hex]; [lia|done].
    + case_bool_decide as H3; [done|].
      cbn [mbind result_bind]. apply IH.
      apply Exists_cons in Hex as [Ht|Hex]; [done|done].
Qed.

Hypothesis wf : wf_frame df.

Lemma length_step_cells : length (cells S) = nrows df.
Proof. exact (wf _ _ step_col). Qed.

Lemma has_three_Exists :
  has_three S P = true ↔
  Exists (fun t => distinct_codes S P t = 3%nat) (unique (cells S)).
Proof.
  unfold has_three. rewrite existsb_elem_of, Exists_exists.
  split; intros (t & Ht & H3); exists t; (split; [done|]).
  - by apply bool_decide_eq_true in H3.
  - by apply bool_decide_eq_true.
Qed.

(** What the call computes: [TypeError] when some step has exactly three
    distinct codes, and otherwise one flag per row, true where the row's
    step has more than three distinct codes. *)
Lemma check_step_completeness_cases :
  check_step_completeness df step_number_col ankle_position_col =
  if has_three S P then Err TypeError
  else Ok (with_working df (complete_flags S P), complete_flags S P).
Proof.
  unfold check_step_completeness.
  rewrite getitem_with_working_ne by done.
  unfold getitem. rewrite step_col. cbn [mbind result_bind].
  destruct (has_three S P) eqn:E3.
  - rewrite visit_steps_raises; [done|]. by apply has_three_Exists.
  - rewrite visit_steps_returns.
    + cbn [mbind result_bind mret result_ret].
      assert (zip_with
                (fun s w => if lowered S P (unique (cells S)) s
                            then false else w)
                (cells S) (replicate (nrows df) true)
              = complete_flags S P) as ->; [|done].
      rewrite <- length_step_cells. unfold complete_flags.
      assert (∀ L : list cell, (∀ s, s ∈ L → s ∈ cells S) →
                zip_with
                  (fun s w => if lowered S P (unique (cells S)) s
                              then false else w)
                  L (replicate (length L) true)
                = (fun s => negb (bool_decide
                                    (distinct_codes S P s < 3)%nat)) <$> L)
        as Hall; [|apply Hall; done].
      induction L as [|x L IH]; intros Hin; cbn; [done|].
      f_equal; [|apply IH; intros s ?; apply Hin; by right].
      assert (lowered S P (unique (cells S)) x
              = bool_decide (distinct_codes S P x < 3)%nat) as ->;
        [|by destruct (bool_decide _)].
      unfold lowered. apply eq_true_iff_eq.
      rewrite existsb_elem_of, bool_decide_eq_true. split.
      * intros (t & _ & Ht). apply andb_true_iff in Ht as [Hx Hlt].
        apply bool_decide_eq_true in Hx as ->.
        by apply bool_decide_eq_true in Hlt.
      * intros Hlt. exists x. split.
        -- apply elem_of_unique, Hin. by left.
        -- apply andb_true_iff. split; by apply bool_decide_eq_true.
    + apply Forall_forall. intros t Ht H3.
      assert (has_three S P = true) as E; [|by rewrite E in E3].
      apply has_three_Exists, Exists_exists. by exists t.
    + by rewrite length_replicate, length_step_cells.
Qed.

End completeness.

(** ** Consequences for the checker *)

Lemma lookup_complete_flags (S P : Series) (i : nat) (s : cell) :
  cells S !! i = Some s →
  complete_flags S P !! i
  = Some (negb (bool_decide (distinct_codes S P s < 3)%nat)).
Proof. intros Hs. unfold complete_flags. by rewrite list_lookup_fmap, Hs. Qed.

Lemma length_complete_flags (S P : Series) :
  length (complete_flags S P) = length (cells S).
Proof. unfold complete_flags. by rewrite length_fmap. Qed.

Lemma has_three_false (S P : Series) :
  (∀ s, s ∈ cells S → distinct_codes S P s ≠ 3%nat) → has_three S P = false.
Proof.
  intros Hno. apply not_true_is_false. unfold has_three.
  rewrite existsb_elem_of. intros (t & Ht & H3).
  apply bool_decide_eq_true in H3. rewrite elem_of_unique in Ht.
  exact (Hno t Ht H3).
Qed.

(** On a table without a step of exactly three codes the call returns, and
    the flag of a row tells whether its step has more than three codes. *)
Lemma check_step_completeness_returns
    (df : DataFrame) (step_number_col ankle_position_col : string)
    (S P : Series) :
  wf_frame df →
  columns df !! step_number_col = Some S →
  columns df !! ankle_position_col = Some P →
  step_number_col ≠ "step_complete" →
  ankle_position_col ≠ "step_complete" →
  (∀ s, s ∈ cells S → distinct_codes S P s ≠ 3%nat) →
  snd <$> check_step_completeness df step_number_col ankle_position_col
  = Ok (complete_flags S P).
Proof.
  intros Hwf HS HP Hs Hp Hno.
  rewrite (check_step_completeness_cases df _ _ S P) by done.
  by rewrite has_three_false.
Qed.

(** A step of exactly three codes anywhere in the table makes the call
    raise, whatever the codes and the condition labels are. *)
Lemma check_step_completeness_raises
    (df : DataFrame) (step_number_col ankle_position_col : string)
    (S P : Series) (s : cell) :
  wf_frame df →
  columns df !! step_number_col = Some S →
  columns df !! ankle_position_col = Some P →
  step_number_col ≠ "step_complete" →
  ankle_position_col ≠ "step_complete" →
  s ∈ cells S →
  distinct_codes S P s = 3%nat →
  check_step_completeness df step_number_col ankle_position_col
  = Err TypeError.
Proof.
  intros Hwf HS HP Hs Hp Hin H3.
  rewrite (check_step_completeness_cases df _ _ S P) by done.
  assert (has_three S P = true) as ->; [|done].
  unfold has_three. apply existsb_elem_of. exists s. split.
  - by apply elem_of_unique.
  - by apply bool_decide_eq_true.
Qed.

(** Line 129 joins its two tests with [|] after [~] on a Python [bool]:
    the second operand is [-1] or [-2], so the guard could never be false,
    whatever the codes and the label are. *)
Lemma guard_always_truthy (not_123 found : bool) :
  truthy (Z.lor (Z.b2z not_123) (py_invert found)) = true.
Proof. by destruct not_123, found. Qed.

(** The row position of line 129 is computed from the accessor's name. *)
Lemma reference_row_raises (df : DataFrame) :
  py_sub (PyStr (name (iloc df))) (PyInt 1) = Err TypeError.
Proof. reflexivity. Qed.

(** [process_steps] stops at its first call of [check_transition], or
    earlier when a column is missing. *)
Lemma process_steps_raises (df : DataFrame) (l r c : string) :
  process_steps df l r c =
  match columns df !! l, columns df !! c with
  | Some _, Some _ => Err TypeError
  | _, _ => Err KeyError
  end.
Proof.
  unfold process_steps, getitem.
  destruct (columns df !! l); [|done].
  destruct (columns df !! c); done.
Qed.

(** ** Codes are only compared with one another *)

#[global] Instance CNum_inj : Inj (=) (=) CNum.
Proof. by intros x y [= ->]. Qed.

Lemma codes_of_step_SInt (S : Series) (codes : list Z) (s : cell) :
  codes_of_step S (SInt codes) s = CNum <$> select (mask_eq S s) codes.
Proof. unfold codes_of_step. cbn [cells]. apply select_fmap. Qed.

Lemma distinct_codes_recode (S : Series) (codes : list Z) (f : Z → Z)
    `{!Inj (=) (=) f} (s : cell) :
  distinct_codes S (SInt (f <$> codes)) s = distinct_codes S (SInt codes) s.
Proof.
  unfold distinct_codes. rewrite !codes_of_step_SInt, select_fmap.
  by rewrite (nunique_fmap CNum), (nunique_fmap f), (nunique_fmap CNum).
Qed.

Lemma nunique_size (l : list Z) :
  nunique l = size (list_to_set l : gset Z).
Proof.
  unfold nunique.
  rewrite <- (size_list_to_set (C := gset Z) (unique l)) by apply NoDup_unique.
  f_equal. apply set_eq. intros x.
  by rewrite !elem_of_list_to_set, elem_of_unique.
Qed.

Lemma wf_frame_setitem (df : DataFrame) (c : string) (s : Series) :
  wf_frame df → series_len s = nrows df → wf_frame (setitem df c s).
Proof.
  intros Hwf Hlen. unfold wf_frame, setitem. cbn.
  by apply map_Forall_insert_2.
Qed.

(** * The claims *)

(** C1 (the code departs from the claim).  On the rest-return recording
    [position = 1,2,3,0] the flags should be false, false, false, true, and on
    the labels [X_UNDEFINED, X_WALKING] they should be false, true; the call
    raises [TypeError] on both, because [isin] is called without the set of
    prior codes. *)
Theorem check_transition_no_flags :
  check_transition (SInt [1; 2; 3; 0])
                   (SStr ["X_WALKING"; "X_WALKING"; "X_WALKING"; "X_WALKING"])
  = Err TypeError
  ∧ check_transition (SInt [1; 1]) (SStr ["X_UNDEFINED"; "X_WALKING"])
    = Err TypeError.
Proof. split; apply check_transition_raises. Qed.

(** C3 (as amended).  When the start [k] and [k] plus the number of
    transitions of [t] are both signed 64-bit integers,
    [assign_step_number t k] returns a sequence of the length of [t] whose
    entry [i] is [k] plus the number of true flags among [t[0..i]], [i]
    included. *)
Theorem assign_step_number_prefix_sum (t : list bool) (k : Z) :
  in_int64 k →
  in_int64 (k + count_true t) →
  ∃ steps : list Z,
    assign_step_number t k = Ok steps
    ∧ length steps = length t
    ∧ ∀ i : nat, (i < length t)%nat →
        steps !! i = Some (k + count_true (take (S i) t)).
Proof. apply assign_step_number_exact. Qed.

Lemma assign_step_number_prefix_sum_witness :
  in_int64 5
  ∧ in_int64 (5 + count_true [false; true; false; true])
  ∧ ∃ steps : list Z,
      assign_step_number [false; true; false; true] 5 = Ok steps
      ∧ length steps = 4%nat
      ∧ steps !! 3%nat = Some 7.
Proof.
  assert (in_int64 5) as H5 by (vm_compute; split; discriminate).
  assert (in_int64 (5 + count_true [false; true; false; true])) as Hend
    by (vm_compute; split; discriminate).
  split; [exact H5|]. split; [exact Hend|].
  destruct (assign_step_number_prefix_sum [false; true; false; true] 5
              H5 Hend) as (steps & Hsteps & Hlen & Hget).
  exists steps. split; [exact Hsteps|]. split; [exact Hlen|].
  apply (Hget 3%nat). cbn. lia.
Defined.

(** C3 as first stated, for every integer start, fails: from the start
    [2^63 - 1] the step number of the second sample wraps to [-2^63]. *)
Lemma assign_step_number_prefix_sum_counterexample :
  assign_step_number [false; true] (2 ^ 63 - 1) = Ok [2 ^ 63 - 1; - 2 ^ 63]
  ∧ ¬ ∃ steps : list Z,
        assign_step_number [false; true] (2 ^ 63 - 1) = Ok steps
        ∧ length steps = 2%nat
        ∧ ∀ i : nat, (i < 2)%nat →
            steps !! i
            = Some (2 ^ 63 - 1 + count_true (take (S i) [false; true])).
Proof.
  split; [by vm_compute|].
  intros (steps & Hsteps & _ & Hget).
  vm_compute in Hsteps. injection Hsteps as <-.
  specialize (Hget 1%nat ltac:(lia)). vm_compute in Hget. discriminate.
Qed.

(** C7 (as amended).  When the start [k] and [k] plus the number of
    transitions of [t] are both signed 64-bit integers, the call returns
    step numbers that never decrease from one sample to the next. *)
Theorem assign_step_number_monotone (t : list bool) (k : Z) :
  in_int64 k →
  in_int64 (k + count_true t) →
  ∃ steps : list Z,
    assign_step_number t k = Ok steps
    ∧ ∀ (i : nat) (a b : Z),
        steps !! i = Some a → steps !! S i = Some b → a ≤ b.
Proof.
  intros Hk Hend.
  destruct (assign_step_number_exact t k Hk Hend)
    as (steps & Hsteps & Hlen & Hget).
  exists steps. split; [done|]. intros i a b Ha Hb.
  pose proof (lookup_lt_Some _ _ _ Ha) as Hi.
  pose proof (lookup_lt_Some _ _ _ Hb) as HSi.
  rewrite Hlen in Hi, HSi.
  rewrite Hget in Ha by done. rewrite Hget in Hb by done.
  injection Ha as <-. injection Hb as <-.
  pose proof (count_true_take_S t i). lia.
Qed.

Lemma assign_step_number_monotone_witness :
  in_int64 0
  ∧ in_int64 (0 + count_true [true; false; true])
  ∧ ∃ steps : list Z,
      assign_step_number [true; false; true] 0 = Ok steps
      ∧ ∀ (i : nat) (a b : Z),
          steps !! i = Some a → steps !! S i = Some b → a ≤ b.
Proof.
  assert (in_int64 0) as H0 by (vm_compute; split; discriminate).
  assert (in_int64 (0 + count_true [true; false; true])) as Hend
    by (vm_compute; split; discriminate).
  split; [exact H0|]. split; [exact Hend|].
  exact (assign_step_number_monotone [true; false; true] 0 H0 Hend).
Defined.

(** C7 as first stated, for every integer start, fails: from the start
    [2^63 - 2] two transitions give the step numbers [2^63 - 1] and then
    [-2^63]. *)
Lemma assign_step_number_monotone_counterexample :
  assign_step_number [true; true] (2 ^ 63 - 2) = Ok [2 ^ 63 - 1; - 2 ^ 63]
  ∧ ¬ ∀ (steps : list Z) (i : nat) (a b : Z),
        assign_step_number [true; true] (2 ^ 63 - 2) = Ok steps →
        steps !! i = Some a → steps !! S i = Some b → a ≤ b.
Proof.
  split; [by vm_compute|].
  intros Hmono.
  specialize (Hmono [2 ^ 63 - 1; - 2 ^ 63] 0%nat (2 ^ 63 - 1) (- 2 ^ 63)).
  assert (2 ^ 63 - 1 ≤ - 2 ^ 63) as Hle.
  { apply Hmono; by vm_compute. }
  vm_compute in Hle. by apply Hle.
Qed.

(** C4 (the code departs from the claim).  On empty input the numbering
    returns an empty sequence and the completeness check returns an empty
    flag sequence, but [check_transition] raises [TypeError] instead of
    returning an empty sequence. *)
Theorem empty_input_stages :
  check_transition (SInt []) (SStr []) = Err TypeError
  ∧ (∀ k : Z, in_int64 k → assign_step_number [] k = Ok [])
  ∧ flags_of (frame_of [] [] []) = Ok [].
Proof.
  split; [apply check_transition_raises|]. split; [|by vm_compute].
  intros k Hk. unfold assign_step_number, series_add.
  by rewrite decide_True.
Qed.

Lemma empty_input_stages_witness :
  in_int64 0 ∧ assign_step_number [] 0 = Ok [].
Proof.
  assert (in_int64 0) as H0 by (vm_compute; split; discriminate).
  split; [exact H0|].
  exact (proj1 (proj2 empty_input_stages) 0 H0).
Defined.

(** C5 (the code departs from the claim).  On a well-formed recording
    [process_steps] returns no table at all: it raises [TypeError] at its
    first call of [check_transition]. *)
Theorem process_steps_no_table :
  wf_frame gait_sample
  ∧ process_steps gait_sample
      "ankle_position_left" "ankle_position_right" "condition"
    = Err TypeError.
Proof.
  split; [apply (bool_decide_unpack _); vm_compute; exact I|].
  by rewrite process_steps_raises.
Qed.

(** C2 (the code departs from the claim).  Step 1 of the first table has the
    codes 1, 2, 3 and follows a row labelled UNDEFINED; step 1 of the second
    has the codes 1, 2, 4.  The rows of the first should be flagged complete
    and those of the second incomplete; the call raises [TypeError] on both
    while it computes the reference row from [iloc.name - 1]. *)
Theorem three_codes_no_flags :
  distinct_codes (SInt [0; 1; 1; 1]) (SInt [0; 1; 2; 3]) (CNum 1) = 3%nat
  ∧ flags_of (frame_of [0; 1; 1; 1] [0; 1; 2; 3]
                ["transparent_UNDEFINED"; "transparent_WALKING";
                 "transparent_WALKING"; "transparent_WALKING"])
    = Err TypeError
  ∧ distinct_codes (SInt [0; 1; 1; 1]) (SInt [0; 1; 2; 4]) (CNum 1) = 3%nat
  ∧ flags_of (frame_of [0; 1; 1; 1] [0; 1; 2; 4]
                ["transparent_UNDEFINED"; "transparent_WALKING";
                 "transparent_WALKING"; "transparent_WALKING"])
    = Err TypeError.
Proof. repeat split; by vm_compute. Qed.

(** C6 (the code departs from the claim).  In the first table step 1 has a
    single code and should be flagged incomplete; in the second step 1 has
    four codes and should be flagged complete.  Step 0 of both has exactly
    three codes, so the call raises [TypeError] and flags no row. *)
Theorem mixed_steps_no_flags :
  distinct_codes (SInt [0; 0; 0; 1]) (SInt [1; 2; 3; 1]) (CNum 1) = 1%nat
  ∧ flags_of (frame_of [0; 0; 0; 1] [1; 2; 3; 1]
                ["transparent_WALKING"; "transparent_WALKING";
                 "transparent_WALKING"; "transparent_WALKING"])
    = Err TypeError
  ∧ distinct_codes (SInt [0; 0; 0; 1; 1; 1; 1]) (SInt [1; 2; 3; 0; 1; 2; 3])
                   (CNum 1) = 4%nat
  ∧ flags_of (frame_of [0; 0; 0; 1; 1; 1; 1] [1; 2; 3; 0; 1; 2; 3]
                ["transparent_WALKING"; "transparent_WALKING";
                 "transparent_WALKING"; "transparent_WALKING";
                 "transparent_WALKING"; "transparent_WALKING";
                 "transparent_WALKING"])
    = Err TypeError.
Proof. repeat split; by vm_compute. Qed.

(** Integer codes are only compared with one another: replacing the codes
    of the position column through any one-to-one map, into or out of the
    domain 0..3, changes neither the flags nor whether the call raises, and
    the size of a step's code set is the number of distinct integers among
    its rows, whatever they are. *)
Lemma recoding_keeps_outcome
    (df : DataFrame) (step_number_col ankle_position_col : string)
    (S : Series) (codes : list Z) (f : Z → Z) :
  Inj (=) (=) f →
  wf_frame df →
  columns df !! step_number_col = Some S →
  columns df !! ankle_position_col = Some (SInt codes) →
  step_number_col ≠ "step_complete" →
  ankle_position_col ≠ "step_complete" →
  step_number_col ≠ ankle_position_col →
  snd <$> check_step_completeness
            (setitem df ankle_position_col (SInt (f <$> codes)))
            step_number_col ankle_position_col
  = snd <$> check_step_completeness df step_number_col ankle_position_col
  ∧ ∀ s : cell,
      distinct_codes S (SInt codes) s
      = size (list_to_set (select (mask_eq S s) codes) : gset Z).
Proof.
  intros Hf Hwf HS HP Hs Hp Hne. split.
  - rewrite (check_step_completeness_cases df _ _ S (SInt codes)) by done.
    rewrite (check_step_completeness_cases _ _ _ S (SInt (f <$> codes))).
    + assert (∀ s, distinct_codes S (SInt (f <$> codes)) s
                   = distinct_codes S (SInt codes) s) as Hd
        by (intros s; by apply distinct_codes_recode).
      assert (has_three S (SInt (f <$> codes)) = has_three S (SInt codes))
        as ->.
      { unfold has_three. apply existsb_ext_all. intros t. by rewrite Hd. }
      destruct (has_three S (SInt codes)); [done|]. cbn. f_equal.
      unfold complete_flags. apply list_fmap_ext. intros _ s _.
      by rewrite Hd.
    + cbn. by rewrite lookup_insert_ne.
    + cbn. by rewrite lookup_insert_eq.
    + done.
    + done.
    + apply wf_frame_setitem; [done|].
      pose proof (Hwf _ _ HP) as Hlen. cbn in Hlen.
      unfold series_len in *. cbn [cells] in *.
      by rewrite !length_fmap in *.
  - intros s. unfold distinct_codes.
    by rewrite codes_of_step_SInt, (nunique_fmap CNum), nunique_size.
Qed.


(** Alone in its table, the step of C8's example is handled as the claim
    says: the codes 1, 2, 4, 7 are four distinct codes and every row of the
    step is flagged complete. *)
Example four_codes_complete :
  distinct_codes (SInt [0; 0; 0; 0]) (SInt [1; 2; 4; 7]) (CNum 0) = 4%nat
  ∧ flags_of (frame_of [0; 0; 0; 0] [1; 2; 4; 7] ["a"; "a"; "a"; "a"])
    = Ok [true; true; true; true].
Proof. split; by vm_compute. Qed.

(** C9.  The returned flags are aligned with the rows, one flag per row in
    row order, and two rows with the same step number carry the same flag.
    The call returns such flags whenever no step has exactly three codes. *)
Theorem flags_constant_within_step
    (df : DataFrame) (step_number_col ankle_position_col : string)
    (S P : Series) :
  wf_frame df →
  columns df !! step_number_col = Some S →
  columns df !! ankle_position_col = Some P →
  step_number_col ≠ "step_complete" →
  ankle_position_col ≠ "step_complete" →
  (has_three S P = false →
   ∃ out, check_step_completeness df step_number_col ankle_position_col
          = Ok out)
  ∧ ∀ (df' : DataFrame) (flags : list bool),
      check_step_completeness df step_number_col ankle_position_col
      = Ok (df', flags) →
      length flags = nrows df
      ∧ ∀ (i j : nat) (s : cell),
          cells S !! i = Some s → cells S !! j = Some s →
          flags !! i = flags !! j.
Proof.
  intros Hwf HS HP Hs Hp.
  rewrite (check_step_completeness_cases df _ _ S P) by done.
  split.
  - intros ->. by eexists.
  - intros df' flags Hret.
    destruct (has_three S P); [done|].
    injection Hret as _ <-. split.
    + rewrite length_complete_flags. exact (Hwf _ _ HS).
    + intros i j s Hi Hj.
      by rewrite (lookup_complete_flags S P i s), (lookup_complete_flags S P j s).
Qed.

Lemma flags_constant_within_step_witness :
  ∃ (df' : DataFrame) (flags : list bool),
    check_step_completeness
      (frame_of [0; 0; 1; 1; 1; 1] [1; 1; 1; 2; 4; 7]
                ["a"; "a"; "a"; "a"; "a"; "a"])
      "step_number_l" "ankle_position_left" = Ok (df', flags)
    ∧ length flags = 6%nat
    ∧ flags !! 2%nat = flags !! 5%nat.
Proof.
  destruct (flags_constant_within_step
              (frame_of [0; 0; 1; 1; 1; 1] [1; 1; 1; 2; 4; 7]
                        ["a"; "a"; "a"; "a"; "a"; "a"])
              "step_number_l" "ankle_position_left"
              (SInt [0; 0; 1; 1; 1; 1]) (SInt [1; 1; 1; 2; 4; 7]))
    as [Hret Hinv].
  - apply (bool_decide_unpack _). vm_compute. exact I.
  - vm_compute. reflexivity.
  - vm_compute. reflexivity.
  - discriminate.
  - discriminate.
  - destruct Hret as [[df' flags] Hout]; [vm_compute; reflexivity|].
    exists df', flags. split; [exact Hout|].
    destruct (Hinv df' flags Hout) as [Hlen Hsame].
    split; [exact Hlen|].
    apply (Hsame 2%nat 5%nat (CNum 1)); reflexivity.
Defined.

(** C10.  Two tables with the same step numbers and the same position codes,
    none of whose steps has exactly three distinct codes, get the same flags,
    whatever their condition labels (and their other columns) are. *)
Theorem flags_ignore_condition
    (df1 df2 : DataFrame) (step_number_col ankle_position_col : string)
    (S P : Series) :
  wf_frame df1 →
  wf_frame df2 →
  columns df1 !! step_number_col = Some S →
  columns df2 !! step_number_col = Some S →
  columns df1 !! ankle_position_col = Some P →
  columns df2 !! ankle_position_col = Some P →
  step_number_col ≠ "step_complete" →
  ankle_position_col ≠ "step_complete" →
  (∀ s, s ∈ cells S → distinct_codes S P s ≠ 3%nat) →
  ∃ flags : list bool,
    snd <$> check_step_completeness df1 step_number_col ankle_position_col
    = Ok flags
    ∧ snd <$> check_step_completeness df2 step_number_col ankle_position_col
      = Ok flags.
Proof.
  intros Hwf1 Hwf2 HS1 HS2 HP1 HP2 Hs Hp Hno.
  exists (complete_flags S P).
  split; by apply check_step_completeness_returns.
Qed.

Lemma flags_ignore_condition_witness :
  ∃ flags : list bool,
    snd <$> check_step_completeness
              (frame_of [0; 0; 1; 1; 1; 1] [1; 1; 1; 2; 4; 7]
                 ["transparent_UNDEFINED"; "transparent_UNDEFINED";
                  "transparent_WALKING"; "transparent_WALKING";
                  "transparent_WALKING"; "transparent_WALKING"])
              "step_number_l" "ankle_position_left" = Ok flags
    ∧ snd <$> check_step_completeness
                (frame_of [0; 0; 1; 1; 1; 1] [1; 1; 1; 2; 4; 7]
                   ["SM_STAIRS_UP"; "SM_STAIRS_UP"; "SM_STAIRS_UP";
                    "SM_UNDEFINED"; "SM_UNDEFINED"; "SM_STAIRS_DOWN"])
                "step_number_l" "ankle_position_left" = Ok flags.
Proof.
  apply (flags_ignore_condition _ _ "step_number_l" "ankle_position_left"
           (SInt [0; 0; 1; 1; 1; 1]) (SInt [1; 1; 1; 2; 4; 7])).
  - apply (bool_decide_unpack _). vm_compute. exact I.
  - apply (bool_decide_unpack _). vm_compute. exact I.
  - vm_compute. reflexivity.
  - vm_compute. reflexivity.
  - vm_compute. reflexivity.
  - vm_compute. reflexivity.
  - discriminate.
  - discriminate.
  - apply Forall_forall. apply (bool_decide_unpack _). vm_compute. exact I.
Defined.

(** * Further properties *)

(** ** Step numbering *)

Lemma count_true_all_false (l : list bool) :
  (∀ b : bool, b ∈ l → b = false) → count_true l = 0.
Proof.
  induction l as [|b l IH]; intros Hall; [done|].
  rewrite count_true_cons, IH.
  - rewrite (Hall b) by apply list_elem_of_here. done.
  - intros b' Hb'. apply Hall. by apply list_elem_of_further.
Qed.

(** X1.  A recording can be numbered piece by piece.  When the start and
    the start of the second piece are signed 64-bit integers, numbering the
    second piece from the first piece's last step number gives the numbering
    of the whole recording, wrapped entries included. *)
Theorem assign_step_number_app (t1 t2 : list bool) (k : Z) :
  in_int64 k →
  in_int64 (k + count_true t1) →
  assign_step_number (t1 ++ t2)%list k
  = (s1 ← assign_step_number t1 k;
     s2 ← assign_step_number t2 (k + count_true t1);
     mret (s1 ++ s2)%list).
Proof.
  intros Hk Hmid. unfold assign_step_number, series_add.
  rewrite !decide_True by done. cbn. f_equal.
  apply list_eq. intros i.
  destruct (decide (i < length t1)%nat) as [H1|H1].
  - rewrite lookup_app_l
      by (unfold cumsum; by rewrite length_fmap, length_cumsum_from).
    rewrite !lookup_series_add_cumsum by (rewrite ?length_app; lia).
    by rewrite take_app_le by lia.
  - rewrite lookup_app_r
      by (unfold cumsum; rewrite length_fmap, length_cumsum_from; lia).
    unfold cumsum at 2. rewrite length_fmap, length_cumsum_from.
    destruct (decide (i < length (t1 ++ t2)%list)%nat) as [H2|H2].
    + rewrite length_app in H2.
      rewrite !lookup_series_add_cumsum by (rewrite ?length_app; lia).
      rewrite take_app_ge by lia. rewrite count_true_app.
      replace (S i - length t1)%nat with (S (i - length t1)) by lia.
      f_equal. f_equal. lia.
    + rewrite !lookup_ge_None_2; [done|..].
      * unfold cumsum. rewrite length_fmap, length_cumsum_from.
        rewrite length_app in H2. lia.
      * unfold cumsum. rewrite length_fmap, length_cumsum_from. lia.
Qed.

Lemma assign_step_number_app_witness :
  assign_step_number ([true; false] ++ [true; true])%list (2 ^ 63 - 3)
  = (s1 ← assign_step_number [true; false] (2 ^ 63 - 3);
     s2 ← assign_step_number [true; true]
            (2 ^ 63 - 3 + count_true [true; false]);
     mret (s1 ++ s2)%list).
Proof.
  apply (assign_step_number_app [true; false] [true; true] (2 ^ 63 - 3));
    vm_compute; split; discriminate.
Defined.

(** X2.  In the sequence a call returns, the first step number is the start
    plus the first flag, and each step number is the one before it plus the
    sample's flag: one more at a transition, the same elsewhere.  The sums
    are int64 sums, so the step after [2^63 - 1] is [-2^63]. *)
Theorem assign_step_number_increment (t : list bool) (k : Z) (steps : list Z) :
  assign_step_number t k = Ok steps →
  (∀ f : bool, t !! 0%nat = Some f →
     steps !! 0%nat = Some (wrap64 (k + Z.b2z f)))
  ∧ ∀ (i : nat) (a : Z) (f : bool),
      steps !! i = Some a →
      t !! S i = Some f →
      steps !! S i = Some (wrap64 (a + Z.b2z f)).
Proof.
  intros Hsteps.
  destruct (assign_step_number_inv t k steps Hsteps) as (_ & Hlen & Hget).
  split.
  - intros f Hf.
    pose proof (lookup_lt_Some _ _ _ Hf) as H0.
    rewrite Hget by done. rewrite (take_S_r t 0 f) by done.
    rewrite take_0, app_nil_l, (count_true_cons f []).
    change (count_true []) with 0. by rewrite Z.add_0_r.
  - intros i a f Ha Hf.
    pose proof (lookup_lt_Some _ _ _ Ha) as Hi.
    pose proof (lookup_lt_Some _ _ _ Hf) as HSi.
    rewrite Hlen in Hi.
    rewrite Hget in Ha by done. rewrite Hget by done.
    injection Ha as <-.
    rewrite (take_S_r t (S i) f) by done.
    rewrite count_true_app, (count_true_cons f []).
    change (count_true []) with 0.
    rewrite wrap64_add_l. f_equal. f_equal. lia.
Qed.

Lemma assign_step_number_increment_witness :
  [2 ^ 63 - 2; 2 ^ 63 - 1; - 2 ^ 63] !! 0%nat
  = Some (wrap64 (2 ^ 63 - 2 + Z.b2z false))
  ∧ [2 ^ 63 - 2; 2 ^ 63 - 1; - 2 ^ 63] !! 2%nat
    = Some (wrap64 (2 ^ 63 - 1 + Z.b2z true)).
Proof.
  destruct (assign_step_number_increment
              [false; true; true] (2 ^ 63 - 2)
              [2 ^ 63 - 2; 2 ^ 63 - 1; - 2 ^ 63])
    as [Hfirst Hnext].
  - vm_compute. reflexivity.
  - split.
    + apply (Hfirst false). reflexivity.
    + apply (Hnext 1%nat (2 ^ 63 - 1) true); reflexivity.
Defined.

(** X3.  With a start that is a signed 64-bit integer and no transition
    at all, every sample keeps the start as its step number. *)
Theorem assign_step_number_no_transition (t : list bool) (k : Z) :
  in_int64 k →
  (∀ b : bool, b ∈ t → b = false) →
  assign_step_number t k = Ok (replicate (length t) k).
Proof.
  intros Hk Hall.
  destruct (assign_step_number_returns t k Hk) as [steps Hsteps].
  rewrite Hsteps. f_equal.
  destruct (assign_step_number_inv t k steps Hsteps) as (_ & Hlen & Hget).
  apply list_eq. intros i.
  destruct (decide (i < length t)%nat) as [Hi|Hi].
  - rewrite Hget by done.
    rewrite lookup_replicate_2 by done. f_equal.
    rewrite count_true_all_false.
    + rewrite Z.add_0_r. by apply wrap64_in_int64.
    + intros b Hb. apply Hall. by apply (subseteq_take (S i) t).
  - rewrite !lookup_ge_None_2; [done|rewrite length_replicate; lia|lia].
Qed.

Lemma assign_step_number_no_transition_witness :
  assign_step_number [false; false; false] 7 = Ok (replicate 3 7).
Proof.
  apply (assign_step_number_no_transition [false; false; false] 7).
  - vm_compute. split; discriminate.
  - intros b Hb. apply (bool_decide_unpack _).
    revert b Hb. apply Forall_forall. apply (bool_decide_unpack _).
    vm_compute. exact I.
Defined.

(** X4.  When the start and the start plus the total count of transitions
    are signed 64-bit integers, every step number lies between these two,
    and the last sample carries exactly the start plus the total. *)
Theorem assign_step_number_range (t : list bool) (k : Z) :
  in_int64 k →
  in_int64 (k + count_true t) →
  ∃ steps : list Z,
    assign_step_number t k = Ok steps
    ∧ (∀ (i : nat) (a : Z),
         steps !! i = Some a → k ≤ a ≤ k + count_true t)
    ∧ (t ≠ [] → last steps = Some (k + count_true t)).
Proof.
  intros Hk Hend.
  destruct (assign_step_number_exact t k Hk Hend)
    as (steps & Hsteps & Hlen & Hget).
  exists steps. split; [done|]. split.
  - intros i a Ha.
    pose proof (lookup_lt_Some _ _ _ Ha) as Hi. rewrite Hlen in Hi.
    rewrite Hget in Ha by done. injection Ha as <-.
    pose proof (count_true_nonneg (take (S i) t)).
    pose proof (count_true_take_le t (S i)). lia.
  - intros Hne. rewrite last_lookup, Hlen.
    destruct t as [|b t]; [done|]. cbn [length pred].
    rewrite Hget by (cbn; lia).
    by rewrite take_ge by (cbn; lia).
Qed.

Lemma assign_step_number_range_witness :
  ∃ steps : list Z,
    assign_step_number [true; false; true] 3 = Ok steps
    ∧ (∀ (i : nat) (a : Z),
         steps !! i = Some a → 3 ≤ a ≤ 3 + count_true [true; false; true])
    ∧ ([true; false; true] ≠ [] →
       last steps = Some (3 + count_true [true; false; true])).
Proof.
  apply (assign_step_number_range [true; false; true] 3);
    vm_compute; split; discriminate.
Defined.

(** ** The completeness check: outcomes *)

(** X5.  With both columns present, neither of them the working column
    ['step_complete'], and a position column of integers, the call fails
    exactly when some step has exactly three distinct codes, and [TypeError]
    is the only exception it can raise. *)
Theorem check_step_completeness_failure
    (df : DataFrame) (step_number_col ankle_position_col : string)
    (S : Series) (codes : list Z) :
  wf_frame df →
  columns df !! step_number_col = Some S →
  columns df !! ankle_position_col = Some (SInt codes) →
  step_number_col ≠ "step_complete" →
  ankle_position_col ≠ "step_complete" →
  (check_step_completeness df step_number_col ankle_position_col
   = Err TypeError
   ↔ ∃ s, s ∈ cells S ∧ distinct_codes S (SInt codes) s = 3%nat)
  ∧ ∀ e, check_step_completeness df step_number_col ankle_position_col
         = Err e → e = TypeError.
Proof.
  intros Hwf HS HP Hs Hp.
  rewrite (check_step_completeness_cases df _ _ S (SInt codes)) by done.
  destruct (has_three S (SInt codes)) eqn:E3.
  - split; [|by intros e [= <-]]. split; [intros _|done].
    apply existsb_elem_of in E3 as (t & Ht & H3).
    exists t. rewrite elem_of_unique in Ht.
    by apply bool_decide_eq_true in H3.
  - split; [|done]. split; [done|]. intros (s & Hin & H3).
    assert (has_three S (SInt codes) = true) as E; [|by rewrite E in E3].
    apply existsb_elem_of. exists s. split.
    + by apply elem_of_unique.
    + by apply bool_decide_eq_true.
Qed.

Lemma check_step_completeness_failure_witness :
  (check_step_completeness
     (frame_of [0; 0; 0; 1] [1; 2; 3; 1] ["a"; "a"; "a"; "a"])
     "step_number_l" "ankle_position_left" = Err TypeError
   ↔ ∃ s, s ∈ cells (SInt [0; 0; 0; 1])
          ∧ distinct_codes (SInt [0; 0; 0; 1]) (SInt [1; 2; 3; 1]) s = 3%nat)
  ∧ ∀ e, check_step_completeness
           (frame_of [0; 0; 0; 1] [1; 2; 3; 1] ["a"; "a"; "a"; "a"])
           "step_number_l" "ankle_position_left" = Err e → e = TypeError.
Proof.
  apply (check_step_completeness_failure
           (frame_of [0; 0; 0; 1] [1; 2; 3; 1] ["a"; "a"; "a"; "a"])
           "step_number_l" "ankle_position_left"
           (SInt [0; 0; 0; 1]) [1; 2; 3; 1]).
  - apply (bool_decide_unpack _). vm_compute. exact I.
  - vm_compute. reflexivity.
  - vm_compute. reflexivity.
  - discriminate.
  - discriminate.
Defined.

(** X6.  With both columns present and neither of them the working column
    ['step_complete'], on a table none of whose steps has exactly three
    distinct codes the call returns one flag per row, and a row is flagged
    complete exactly when its step holds more than three distinct codes. *)
Theorem check_step_completeness_flags
    (df : DataFrame) (step_number_col ankle_position_col : string)
    (S P : Series) :
  wf_frame df →
  columns df !! step_number_col = Some S →
  columns df !! ankle_position_col = Some P →
  step_number_col ≠ "step_complete" →
  ankle_position_col ≠ "step_complete" →
  (∀ s, s ∈ cells S → distinct_codes S P s ≠ 3%nat) →
  ∃ (df' : DataFrame) (flags : list bool),
    check_step_completeness df step_number_col ankle_position_col
    = Ok (df', flags)
    ∧ length flags = nrows df
    ∧ ∀ (i : nat) (s : cell),
        cells S !! i = Some s →
        flags !! i = Some (bool_decide (3 < distinct_codes S P s)%nat).
Proof.
  intros Hwf HS HP Hs Hp Hno.
  exists (with_working df (complete_flags S P)), (complete_flags S P).
  rewrite (check_step_completeness_cases df _ _ S P) by done.
  rewrite has_three_false by done. split; [done|]. split.
  - rewrite length_complete_flags. exact (Hwf _ _ HS).
  - intros i s Hi. rewrite (lookup_complete_flags S P i s) by done.
    f_equal. pose proof (Hno s (list_elem_of_lookup_2 _ _ _ Hi)) as Hne.
    do 2 case_bool_decide; (done || lia).
Qed.

Lemma check_step_completeness_flags_witness :
  ∃ (df' : DataFrame) (flags : list bool),
    check_step_completeness
      (frame_of [0; 0; 1; 1; 1; 1] [1; 1; 1; 2; 4; 7]
                ["a"; "a"; "a"; "a"; "a"; "a"])
      "step_number_l" "ankle_position_left" = Ok (df', flags)
    ∧ length flags = 6%nat
    ∧ ∀ (i : nat) (s : cell),
        cells (SInt [0; 0; 1; 1; 1; 1]) !! i = Some s →
        flags !! i
        = Some (bool_decide
                  (3 < distinct_codes (SInt [0; 0; 1; 1; 1; 1]%Z)
                                      (SInt [1; 1; 1; 2; 4; 7]%Z) s)%nat).
Proof.
  apply (check_step_completeness_flags
           (frame_of [0; 0; 1; 1; 1; 1] [1; 1; 1; 2; 4; 7]
                     ["a"; "a"; "a"; "a"; "a"; "a"])
           "step_number_l" "ankle_position_left"
           (SInt [0; 0; 1; 1; 1; 1]) (SInt [1; 1; 1; 2; 4; 7])).
  - apply (bool_decide_unpack _). vm_compute. exact I.
  - vm_compute. reflexivity.
  - vm_compute. reflexivity.
  - discriminate.
  - discriminate.
  - apply Forall_forall. apply (bool_decide_unpack _). vm_compute. exact I.
Defined.

(** ** The completeness check and the working column *)

Lemma with_working_setitem (df : DataFrame) (x : Series) (work : list bool) :
  with_working (setitem df "step_complete" x) work = with_working df work.
Proof.
  unfold with_working, setitem. cbn. by rewrite insert_insert_eq.
Qed.

Lemma visit_step_setitem (df : DataFrame) (x : Series)
    (step_number_col ankle_position_col : string)
    (step : cell) (work : list bool) :
  visit_step (setitem df "step_complete" x)
             step_number_col ankle_position_col step work
  = visit_step df step_number_col ankle_position_col step work.
Proof. unfold visit_step. by rewrite with_working_setitem. Qed.

Lemma visit_steps_setitem (df : DataFrame) (x : Series)
    (step_number_col ankle_position_col : string) (steps : list cell) :
  ∀ work : list bool,
  visit_steps (setitem df "step_complete" x)
              step_number_col ankle_position_col steps work
  = visit_steps df step_number_col ankle_position_col steps work.
Proof.
  induction steps as [|t steps IH]; intros work; cbn [visit_steps]; [done|].
  rewrite visit_step_setitem.
  destruct (visit_step _ _ _ _ _) as [work'|e]; cbn; [apply IH|done].
Qed.

Lemma check_step_completeness_setitem
    (df : DataFrame) (x : Series)
    (step_number_col ankle_position_col : string) :
  check_step_completeness (setitem df "step_complete" x)
                          step_number_col ankle_position_col
  = check_step_completeness df step_number_col ankle_position_col.
Proof.
  unfold check_step_completeness.
  change (nrows (setitem df "step_complete" x)) with (nrows df).
  rewrite with_working_setitem.
  destruct (getitem _ _) as [s|e]; [|done]. cbn [mbind result_bind].
  rewrite visit_steps_setitem.
  destruct (visit_steps _ _ _ _ _) as [work|e]; [|done].
  cbn [mbind result_bind]. by rewrite with_working_setitem.
Qed.

(** X7.  A ['step_complete'] column already in the table has no influence
    on the outcome: the call overwrites it before it reads anything. *)
Theorem stale_working_column_ignored
    (df : DataFrame) (x : Series)
    (step_number_col ankle_position_col : string) :
  check_step_completeness (setitem df "step_complete" x)
                          step_number_col ankle_position_col
  = check_step_completeness df step_number_col ankle_position_col.
Proof. apply check_step_completeness_setitem. Qed.

Lemma mark_incomplete_length (cur : DataFrame) (step_number_col : string)
    (step : cell) (work work' : list bool) :
  wf_frame cur → length work = nrows cur →
  mark_incomplete cur step_number_col step work = Ok work' →
  length work' = length work.
Proof.
  intros Hwf Hlen. unfold mark_incomplete, getitem.
  destruct (columns cur !! step_number_col) as [s|] eqn:Hs; [|done].
  cbn. intros [= <-]. apply length_loc_assign.
  unfold mask_eq. rewrite length_fmap, Hlen. exact (Hwf _ _ Hs).
Qed.

Lemma wf_frame_with_working (df : DataFrame) (work : list bool) :
  wf_frame df → length work = nrows df → wf_frame (with_working df work).
Proof.
  intros Hwf Hlen. apply wf_frame_setitem; [done|].
  unfold series_len. cbn. by rewrite length_fmap.
Qed.

Lemma visit_step_length (df : DataFrame)
    (step_number_col ankle_position_col : string)
    (step : cell) (work work' : list bool) :
  wf_frame df → length work = nrows df →
  visit_step df step_number_col ankle_position_col step work = Ok work' →
  length work' = nrows df.
Proof.
  intros Hwf Hlen. unfold visit_step.
  pose proof (wf_frame_with_working df work Hwf Hlen) as Hcur.
  destruct (group_codes _ _ _ _) as [codes|e]; [|done].
  cbn [mbind result_bind].
  case_bool_decide.
  - intros Hm. rewrite <- Hlen.
    by apply (mark_incomplete_length _ _ _ _ _ Hcur Hlen Hm).
  - case_bool_decide; [|by intros [= <-]].
    destruct (getitem _ _) as [s|e]; done.
Qed.

Lemma visit_steps_length (df : DataFrame)
    (step_number_col ankle_position_col : string) (steps : list cell) :
  ∀ work work' : list bool,
  wf_frame df → length work = nrows df →
  visit_steps df step_number_col ankle_position_col steps work = Ok work' →
  length work' = nrows df.
Proof.
  induction steps as [|t steps IH]; intros work work' Hwf Hlen;
    cbn [visit_steps].
  - by intros [= <-].
  - destruct (visit_step _ _ _ _ _) as [w|e] eqn:E; [|done].
    cbn [mbind result_bind]. apply IH; [done|].
    by apply (visit_step_length _ _ _ _ _ _ Hwf Hlen E).
Qed.

(** X8.  Whatever columns are named, a call that returns leaves the table
    with the same rows and columns plus ['step_complete'] holding the
    returned flags, one per row; calling again on that table returns the
    same flags and the same table. *)
Theorem check_step_completeness_table
    (df df' : DataFrame) (step_number_col ankle_position_col : string)
    (flags : list bool) :
  wf_frame df →
  check_step_completeness df step_number_col ankle_position_col
  = Ok (df', flags) →
  length flags = nrows df
  ∧ nrows df' = nrows df
  ∧ columns df' = <["step_complete" := SBool flags]> (columns df)
  ∧ wf_frame df'
  ∧ check_step_completeness df' step_number_col ankle_position_col
    = Ok (df', flags).
Proof.
  intros Hwf Hret. pose proof Hret as Hret'.
  unfold check_step_completeness in Hret.
  destruct (getitem _ _) as [s|e]; [|done]. cbn [mbind result_bind] in Hret.
  destruct (visit_steps _ _ _ _ _) as [work|e] eqn:E; [|done].
  injection Hret as <- <-.
  assert (length work = nrows df) as Hlen.
  { apply (visit_steps_length _ _ _ _ _ _ Hwf) in E; [done|].
    by rewrite length_replicate. }
  split; [done|]. split; [done|]. split; [done|].
  split; [by apply wf_frame_with_working|].
  unfold with_working at 1. by rewrite check_step_completeness_setitem.
Qed.

Lemma check_step_completeness_table_witness :
  length [false; false; true; true; true; true] = 6%nat
  ∧ check_step_completeness
      (with_working (frame_of [0; 0; 1; 1; 1; 1] [1; 1; 1; 2; 4; 7]
                              ["a"; "a"; "a"; "a"; "a"; "a"])
                    [false; false; true; true; true; true])
      "step_number_l" "ankle_position_left"
    = Ok (with_working (frame_of [0; 0; 1; 1; 1; 1] [1; 1; 1; 2; 4; 7]
                                 ["a"; "a"; "a"; "a"; "a"; "a"])
                       [false; false; true; true; true; true],
          [false; false; true; true; true; true]).
Proof.
  destruct (check_step_completeness_table
              (frame_of [0; 0; 1; 1; 1; 1] [1; 1; 1; 2; 4; 7]
                        ["a"; "a"; "a"; "a"; "a"; "a"])
              (with_working (frame_of [0; 0; 1; 1; 1; 1] [1; 1; 1; 2; 4; 7]
                                      ["a"; "a"; "a"; "a"; "a"; "a"])
                            [false; false; true; true; true; true])
              "step_number_l" "ankle_position_left"
              [false; false; true; true; true; true])
    as (Hlen & _ & _ & _ & Hagain).
  - apply (bool_decide_unpack _). vm_compute. exact I.
  - vm_compute. reflexivity.
  - split; [reflexivity|exact Hagain].
Defined.

(** ** The completeness check: missing columns *)

(** X9.  A step-number column that is not in the table, under a name other
    than the working column ['step_complete'], raises [KeyError], whatever
    else the table holds. *)
Theorem missing_step_column
    (df : DataFrame) (step_number_col ankle_position_col : string) :
  step_number_col ≠ "step_complete" →
  columns df !! step_number_col = None →
  check_step_completeness df step_number_col ankle_position_col
  = Err KeyError.
Proof.
  intros Hs Hnone. unfold check_step_completeness.
  rewrite getitem_with_working_ne by done.
  unfold getitem. by rewrite Hnone.
Qed.

Lemma missing_step_column_witness :
  check_step_completeness gait_sample "step_number_l" "ankle_position_left"
  = Err KeyError.
Proof.
  apply (missing_step_column gait_sample "step_number_l"
                             "ankle_position_left").
  - discriminate.
  - vm_compute. reflexivity.
Defined.

(** X10.  When neither column name is the working column ['step_complete']
    and the step-number column is present, a position column that is not in
    the table raises [KeyError] as soon as the table has a row; on a table
    without rows the column is never read and the call returns no flags. *)
Theorem missing_position_column
    (df : DataFrame) (step_number_col ankle_position_col : string)
    (S : Series) :
  wf_frame df →
  columns df !! step_number_col = Some S →
  columns df !! ankle_position_col = None →
  step_number_col ≠ "step_complete" →
  ankle_position_col ≠ "step_complete" →
  check_step_completeness df step_number_col ankle_position_col
  = if decide (nrows df = 0%nat) then Ok (with_working df [], [])
    else Err KeyError.
Proof.
  intros Hwf HS HP Hs Hp. unfold check_step_completeness.
  rewrite getitem_with_working_ne by done.
  unfold getitem at 1. rewrite HS. cbn [mbind result_bind].
  pose proof (Hwf _ _ HS) as Hlen. unfold series_len in Hlen. cbn in Hlen.
  destruct (cells S) as [|x L] eqn:EL.
  - cbn in Hlen. rewrite <- Hlen. by rewrite decide_True.
  - cbn in Hlen. rewrite decide_False by lia.
    unfold unique. cbn [unique_from].
    rewrite decide_False by (by intros ?%elem_of_nil).
    cbn [visit_steps]. unfold visit_step, group_codes.
    rewrite !getitem_with_working_ne by done.
    unfold getitem. by rewrite HS, HP.
Qed.

Lemma missing_position_column_witness :
  check_step_completeness (frame_of [0; 0] [1; 2] ["a"; "a"])
                          "step_number_l" "ankle_position_right"
  = Err KeyError.
Proof.
  apply (missing_position_column (frame_of [0; 0] [1; 2] ["a"; "a"])
           "step_number_l" "ankle_position_right" (SInt [0; 0])).
  - apply (bool_decide_unpack _). vm_compute. exact I.
  - vm_compute. reflexivity.
  - vm_compute. reflexivity.
  - discriminate.
  - discriminate.
Defined.

(** ** The completeness check: short steps and loop order *)

Lemma length_unique_from_le {A} `{EqDecision A} (l : list A) :
  ∀ seen : list A, (length (unique_from seen l) ≤ length l)%nat.
Proof.
  induction l as [|x l IH]; intros seen; cbn; [done|].
  destruct (decide (x ∈ seen)).
  - specialize (IH seen). lia.
  - cbn. specialize (IH (x :: seen)). lia.
Qed.

Lemma nunique_le_length {A} `{EqDecision A} (l : list A) :
  (nunique l ≤ length l)%nat.
Proof. apply length_unique_from_le. Qed.

Lemma length_select_mask_eq (L : list cell) (s : cell) :
  ∀ X : list cell,
  (length (select ((fun x => bool_decide (x = s)) <$> L) X)
   ≤ length (filter (fun x => x = s) L))%nat.
Proof.
  induction L as [|y L IH]; intros X; [cbn; lia|].
  rewrite fmap_cons. destruct X as [|x X].
  - cbn. lia.
  - cbn [select]. case_bool_decide.
    + rewrite filter_cons_True by done. cbn [length]. specialize (IH X). lia.
    + rewrite filter_cons_False by done. apply IH.
Qed.

Lemma distinct_codes_le_rows (S P : Series) (s : cell) :
  (distinct_codes S P s ≤ length (filter (fun x => x = s) (cells S)))%nat.
Proof.
  unfold distinct_codes, codes_of_step, mask_eq.
  pose proof (nunique_le_length
                (select ((fun x => bool_decide (x = s)) <$> cells S)
                        (cells P))).
  pose proof (length_select_mask_eq (cells S) s (cells P)). lia.
Qed.

(** X11.  With both columns present and neither of them the working column
    ['step_complete'], a step made of fewer than three rows can never be
    complete: on a table where the call returns, every row of such a step is
    flagged incomplete. *)
Theorem short_step_incomplete
    (df : DataFrame) (step_number_col ankle_position_col : string)
    (S P : Series) (i : nat) (s : cell) :
  wf_frame df →
  columns df !! step_number_col = Some S →
  columns df !! ankle_position_col = Some P →
  step_number_col ≠ "step_complete" →
  ankle_position_col ≠ "step_complete" →
  (∀ t, t ∈ cells S → distinct_codes S P t ≠ 3%nat) →
  cells S !! i = Some s →
  (length (filter (fun x => x = s) (cells S)) < 3)%nat →
  ∃ (df' : DataFrame) (flags : list bool),
    check_step_completeness df step_number_col ankle_position_col
    = Ok (df', flags)
    ∧ flags !! i = Some false.
Proof.
  intros Hwf HS HP Hs Hp Hno Hi Hrows.
  exists (with_working df (complete_flags S P)), (complete_flags S P).
  rewrite (check_step_completeness_cases df _ _ S P) by done.
  rewrite has_three_false by done. split; [done|].
  rewrite (lookup_complete_flags S P i s) by done.
  pose proof (distinct_codes_le_rows S P s).
  rewrite bool_decide_eq_true_2 by lia. done.
Qed.

Lemma short_step_incomplete_witness :
  ∃ (df' : DataFrame) (flags : list bool),
    check_step_completeness
      (frame_of [0; 0; 1; 1; 1; 1] [1; 1; 1; 2; 4; 7]
                ["a"; "a"; "a"; "a"; "a"; "a"])
      "step_number_l" "ankle_position_left" = Ok (df', flags)
    ∧ flags !! 1%nat = Some false.
Proof.
  apply (short_step_incomplete
           (frame_of [0; 0; 1; 1; 1; 1] [1; 1; 1; 2; 4; 7]
                     ["a"; "a"; "a"; "a"; "a"; "a"])
           "step_number_l" "ankle_position_left"
           (SInt [0; 0; 1; 1; 1; 1]) (SInt [1; 1; 1; 2; 4; 7])
           1%nat (CNum 0)).
  - apply (bool_decide_unpack _). vm_compute. exact I.
  - vm_compute. reflexivity.
  - vm_compute. reflexivity.
  - discriminate.
  - discriminate.
  - apply Forall_forall. apply (bool_decide_unpack _). vm_compute. exact I.
  - reflexivity.
  - vm_compute. lia.
Defined.




(** ** [process_steps]: every call *)

(** X13.  [process_steps] returns for no input.  It raises [KeyError] when
    the left position column or the condition column is missing and
    [TypeError] otherwise; whether the right position column exists is never
    found out. *)
Theorem process_steps_error
    (df : DataFrame)
    (ankle_position_col_left ankle_position_col_right condition_col : string) :
  process_steps df ankle_position_col_left ankle_position_col_right
                condition_col
  = Err (if bool_decide (is_Some (columns df !! ankle_position_col_left)
                         ∧ is_Some (columns df !! condition_col))
         then TypeError else KeyError).
Proof.
  rewrite process_steps_raises.
  destruct (columns df !! ankle_position_col_left) as [l|],
           (columns df !! condition_col) as [c|].
  - rewrite bool_decide_eq_true_2; [done|]. split; by eexists.
  - rewrite bool_decide_eq_false_2; [done|]. intros [_ [? [=]]].
  - rewrite bool_decide_eq_false_2; [done|]. intros [[? [=]] _].
  - rewrite bool_decide_eq_false_2; [done|]. intros [[? [=]] _].
Qed.

(** ** [format_activity] *)

Ltac by_cases_on_char c :=
  destruct c as [[] [] [] [] [] [] [] []]; vm_compute; try reflexivity;
  try discriminate; try (intros; discriminate); try (intros; reflexivity).

Lemma to_lower_idem (c : Ascii.ascii) : to_lower (to_lower c) = to_lower c.
Proof. by_cases_on_char c. Qed.

Lemma to_upper_idem (c : Ascii.ascii) : to_upper (to_upper c) = to_upper c.
Proof. by_cases_on_char c. Qed.

Lemma to_upper_to_lower (c : Ascii.ascii) : to_upper (to_lower c) = to_upper c.
Proof. by_cases_on_char c. Qed.

Lemma to_lower_to_upper (c : Ascii.ascii) : to_lower (to_upper c) = to_lower c.
Proof. by_cases_on_char c. Qed.

Lemma is_cased_to_lower (c : Ascii.ascii) : is_cased (to_lower c) = is_cased c.
Proof. by_cases_on_char c. Qed.

Lemma is_cased_to_upper (c : Ascii.ascii) : is_cased (to_upper c) = is_cased c.
Proof. by_cases_on_char c. Qed.

Lemma is_upper_to_lower (c : Ascii.ascii) :
  is_cased c = true → is_upper (to_lower c) = false.
Proof. by_cases_on_char c. Qed.

Lemma is_upper_to_upper (c : Ascii.ascii) :
  is_cased c = true → is_upper (to_upper c) = true.
Proof. by_cases_on_char c. Qed.

Lemma underscore_to_lower (c : Ascii.ascii) :
  Ascii.eqb (to_lower c) "_" = Ascii.eqb c "_".
Proof. by_cases_on_char c. Qed.

Lemma underscore_to_upper (c : Ascii.ascii) :
  Ascii.eqb (to_upper c) "_" = Ascii.eqb c "_".
Proof. by_cases_on_char c. Qed.

Lemma ascii_to_lower (c : Ascii.ascii) :
  (Ascii.nat_of_ascii c < 128)%nat →
  (Ascii.nat_of_ascii (to_lower c) < 128)%nat.
Proof.
  intros Hc. unfold to_lower, is_upper.
  destruct (_ && _) eqn:E; [|done].
  apply andb_true_iff in E as [_ E%Nat.leb_le].
  rewrite Ascii.nat_ascii_embedding; lia.
Qed.

Lemma ascii_to_upper (c : Ascii.ascii) :
  (Ascii.nat_of_ascii c < 128)%nat →
  (Ascii.nat_of_ascii (to_upper c) < 128)%nat.
Proof.
  intros Hc. unfold to_upper, is_lower.
  destruct (_ && _) eqn:E; [|done].
  rewrite Ascii.nat_ascii_embedding; lia.
Qed.

Lemma length_replace_char (old new : Ascii.ascii) (s : string) :
  String.length (replace_char old new s) = String.length s.
Proof. induction s as [|c s IH]; cbn; [done|]. by rewrite IH. Qed.

Lemma length_title_from (s : string) : ∀ p : bool,
  String.length (title_from p s) = String.length s.
Proof. induction s as [|c s IH]; intros p; cbn; [done|]. by rewrite IH. Qed.

Lemma underscore_free_replace (s : string) :
  underscore_free (replace_char "_" " " s).
Proof.
  unfold underscore_free. induction s as [|c s IH]; cbn; [constructor|].
  constructor; [|done]. by destruct (Ascii.eqb c "_") eqn:E.
Qed.

Lemma underscore_free_title_from (s : string) : ∀ p : bool,
  underscore_free s → underscore_free (title_from p s).
Proof.
  unfold underscore_free.
  induction s as [|c s IH]; intros p Hs; cbn in *; [constructor|].
  apply Forall_cons in Hs as [Hc Hs]. constructor; [|by apply IH].
  destruct p; by rewrite ?underscore_to_lower, ?underscore_to_upper.
Qed.

Lemma replace_char_underscore_free (s : string) :
  underscore_free s → replace_char "_" " " s = s.
Proof.
  unfold underscore_free. induction s as [|c s IH]; cbn; [done|].
  intros [Hc Hs]%Forall_cons. by rewrite Hc, IH.
Qed.

Lemma title_from_idem (s : string) : ∀ p : bool,
  title_from p (title_from p s) = title_from p s.
Proof.
  induction s as [|c s IH]; intros p; cbn; [done|].
  destruct p.
  - by rewrite to_lower_idem, is_cased_to_lower, IH.
  - by rewrite to_upper_idem, is_cased_to_upper, IH.
Qed.

Lemma ascii_text_replace (s : string) :
  ascii_text s → ascii_text (replace_char "_" " " s).
Proof.
  unfold ascii_text. induction s as [|c s IH]; cbn; [done|].
  intros [Hc Hs]%Forall_cons. constructor; [|by apply IH].
  destruct (Ascii.eqb c "_"); [|done].
  change (Ascii.nat_of_ascii " ") with 32%nat. lia.
Qed.

Lemma ascii_text_title_from (s : string) : ∀ p : bool,
  ascii_text s → ascii_text (title_from p s).
Proof.
  unfold ascii_text. induction s as [|c s IH]; intros p; cbn; [done|].
  intros [Hc Hs]%Forall_cons. constructor; [|by apply IH].
  destruct p; [by apply ascii_to_lower|by apply ascii_to_upper].
Qed.

(** X14.  On ASCII text [format_activity] keeps the length, returns ASCII
    text, and leaves no underscore in its result. *)
Theorem format_activity_shape (activity : string) :
  ascii_text activity →
  String.length (format_activity activity) = String.length activity
  ∧ ascii_text (format_activity activity)
  ∧ underscore_free (format_activity activity).
Proof.
  intros Hs. unfold format_activity, title. split; [|split].
  - by rewrite length_title_from, length_replace_char.
  - by apply ascii_text_title_from, ascii_text_replace.
  - apply underscore_free_title_from, underscore_free_replace.
Qed.

Lemma format_activity_shape_witness :
  String.length (format_activity "STAIRS_UP") = String.length "STAIRS_UP"
  ∧ ascii_text (format_activity "STAIRS_UP")
  ∧ underscore_free (format_activity "STAIRS_UP").
Proof.
  apply (format_activity_shape "STAIRS_UP").
  apply (bool_decide_unpack _). vm_compute. exact I.
Defined.

(** X15.  Formatting a formatted name changes nothing. *)
Theorem format_activity_idempotent (activity : string) :
  ascii_text activity →
  format_activity (format_activity activity) = format_activity activity.
Proof.
  intros _. unfold format_activity, title.
  rewrite (replace_char_underscore_free (title_from false _)).
  - apply title_from_idem.
  - apply underscore_free_title_from, underscore_free_replace.
Qed.

Lemma format_activity_idempotent_witness :
  format_activity (format_activity "RAMPS_DOWN") = format_activity "RAMPS_DOWN".
Proof.
  apply (format_activity_idempotent "RAMPS_DOWN").
  apply (bool_decide_unpack _). vm_compute. exact I.
Defined.

Lemma replace_char_lower (s : string) :
  replace_char "_" " " (lower s) = lower (replace_char "_" " " s).
Proof.
  induction s as [|c s IH]; cbn; [done|].
  rewrite underscore_to_lower, IH. by destruct (Ascii.eqb c "_").
Qed.

Lemma replace_char_upper (s : string) :
  replace_char "_" " " (upper s) = upper (replace_char "_" " " s).
Proof.
  induction s as [|c s IH]; cbn; [done|].
  rewrite underscore_to_upper, IH. by destruct (Ascii.eqb c "_").
Qed.

Lemma title_from_lower (s : string) : ∀ p : bool,
  title_from p (lower s) = title_from p s.
Proof.
  induction s as [|c s IH]; intros p; cbn; [done|].
  rewrite is_cased_to_lower, IH.
  destruct p; by rewrite ?to_lower_idem, ?to_upper_to_lower.
Qed.

Lemma title_from_upper (s : string) : ∀ p : bool,
  title_from p (upper s) = title_from p s.
Proof.
  induction s as [|c s IH]; intros p; cbn; [done|].
  rewrite is_cased_to_upper, IH.
  destruct p; by rewrite ?to_upper_idem, ?to_lower_to_upper.
Qed.

(** X16.  The result does not depend on the case of the input: a name
    written in lower case or in upper case is formatted like the name
    itself. *)
Theorem format_activity_case_insensitive (activity : string) :
  ascii_text activity →
  format_activity (lower activity) = format_activity activity
  ∧ format_activity (upper activity) = format_activity activity.
Proof.
  intros _. unfold format_activity, title. split.
  - by rewrite replace_char_lower, title_from_lower.
  - by rewrite replace_char_upper, title_from_upper.
Qed.

Lemma format_activity_case_insensitive_witness :
  format_activity (lower "Stairs_DOWN") = format_activity "Stairs_DOWN"
  ∧ format_activity (upper "Stairs_DOWN") = format_activity "Stairs_DOWN".
Proof.
  apply (format_activity_case_insensitive "Stairs_DOWN").
  apply (bool_decide_unpack _). vm_compute. exact I.
Defined.

Lemma title_from_capitals (s : string) : ∀ (p : bool) (i : nat) (c : Ascii.ascii),
  String.get i (title_from p s) = Some c →
  is_cased c = true →
  match i with
  | O => is_upper c = negb p
  | S j => ∀ q, String.get j (title_from p s) = Some q →
                is_upper c = negb (is_cased q)
  end.
Proof.
  induction s as [|c0 s IH]; intros p i c Hget Hc; [by destruct i|].
  cbn [title_from] in *. destruct i as [|j]; cbn [String.get] in Hget.
  - injection Hget as <-. destruct p.
    + rewrite is_cased_to_lower in Hc. by rewrite is_upper_to_lower.
    + rewrite is_cased_to_upper in Hc. by rewrite is_upper_to_upper.
  - intros q Hq. specialize (IH (is_cased c0) j c Hget Hc).
    destruct j as [|k]; cbn [String.get] in Hq.
    + injection Hq as <-. rewrite IH.
      destruct p; by rewrite ?is_cased_to_lower, ?is_cased_to_upper.
    + by apply IH.
Qed.

(** X17.  In the result every word starts with a capital and goes on in
    lower case: a letter is a capital exactly when it is the first character
    or follows a character that is not a letter. *)
Theorem format_activity_capitals (activity : string) (i : nat) (c : Ascii.ascii) :
  ascii_text activity →
  String.get i (format_activity activity) = Some c →
  is_cased c = true →
  match i with
  | O => is_upper c = true
  | S j => ∀ q, String.get j (format_activity activity) = Some q →
                is_upper c = negb (is_cased q)
  end.
Proof.
  intros _ Hget Hc. unfold format_activity, title in *.
  by apply (title_from_capitals _ false i c Hget Hc).
Qed.

Lemma format_activity_capitals_witness :
  is_upper "U" = negb (is_cased " ") ∧ is_upper "p" = negb (is_cased "U").
Proof.
  split.
  - apply (format_activity_capitals "STAIRS_UP" 7 "U");
      [apply (bool_decide_unpack _); vm_compute; exact I
      |reflexivity|reflexivity|reflexivity].
  - apply (format_activity_capitals "STAIRS_UP" 8 "p");
      [apply (bool_decide_unpack _); vm_compute; exact I
      |reflexivity|reflexivity|reflexivity].
Defined.

(** ** The label tables *)

Lemma Activity_members_all (a : Activity) : a ∈ Activity_members.
Proof. destruct a; apply (bool_decide_unpack _); vm_compute; exact I. Qed.

(** X18.  [condition_mapping] has one entry for every regime of
    [color_mapping] and every activity, under the key regime, underscore,
    activity name, and no other entry.  The code it gives is the value of
    the [Activity] member, except for UNDEFINED, which is coded 0 while the
    member's value is 6. *)
Theorem condition_mapping_codes :
  size condition_mapping = (size color_mapping * length Activity_members)%nat
  ∧ ∀ (regime color : string) (a : Activity),
      color_mapping !! regime = Some color →
      condition_mapping !! (regime ++ "_" ++ Activity_name a)
      = Some (if decide (a = UNDEFINED) then 0 else Activity_value a).
Proof.
  split; [by vm_compute|].
  intros regime color a Hregime.
  assert (map_Forall
            (fun regime _ =>
               Forall (fun a =>
                         condition_mapping
                           !! (regime ++ "_" ++ Activity_name a)
                         = Some (if decide (a = UNDEFINED) then 0
                                 else Activity_value a))
                      Activity_members)
            color_mapping) as Hall.
  { apply (bool_decide_unpack _). vm_compute. exact I. }
  specialize (Hall regime color Hregime).
  rewrite Forall_forall in Hall. apply Hall, Activity_members_all.
Qed.

Lemma condition_mapping_codes_witness :
  condition_mapping !! ("SM" ++ "_" ++ Activity_name UNDEFINED) = Some 0
  ∧ condition_mapping !! ("transparent" ++ "_" ++ Activity_name STAIRS_UP)
    = Some 4.
Proof.
  destruct condition_mapping_codes as [_ Hcode]. split.
  - apply (Hcode "SM" "tab:orange" UNDEFINED). reflexivity.
  - apply (Hcode "transparent" "tab:blue" STAIRS_UP). reflexivity.
Defined.

(** X19.  The labels that the step helpers treat as undefined, those that
    contain "UNDEFINED", are exactly the labels coded 0. *)
Theorem undefined_labels_coded_zero (label : string) (code : Z) :
  condition_mapping !! label = Some code →
  str_contains "UNDEFINED" label = bool_decide (code = 0).
Proof.
  revert label code.
  change (map_Forall
            (fun label code =>
               str_contains "UNDEFINED" label = bool_decide (code = 0))
            condition_mapping).
  apply (bool_decide_unpack _). vm_compute. exact I.
Qed.

Lemma undefined_labels_coded_zero_witness :
  str_contains "UNDEFINED" "SM_UNDEFINED" = bool_decide (0 = 0)
  ∧ str_contains "UNDEFINED" "SM_RAMPS_UP" = bool_decide (2 = 0).
Proof.
  split.
  - apply (undefined_labels_coded_zero "SM_UNDEFINED" 0). reflexivity.
  - apply (undefined_labels_coded_zero "SM_RAMPS_UP" 2). reflexivity.
Defined.

(** X20.  [order] lists every label with a nonzero code once, and nothing
    else. *)
Theorem order_lists_defined_labels :
  NoDup order
  ∧ ∀ label : string,
      label ∈ order
      ↔ ∃ code, condition_mapping !! label = Some code ∧ code ≠ 0.
Proof.
  split; [apply (bool_decide_unpack _); vm_compute; exact I|].
  intros label. split.
  - revert label. apply Forall_forall.
    assert (Forall (fun label =>
                      is_Some (condition_mapping !! label)
                      ∧ condition_mapping !! label ≠ Some 0) order) as Hall.
    { apply (bool_decide_unpack _). vm_compute. exact I. }
    eapply Forall_impl; [exact Hall|]. cbn. intros label [[code Hl] Hne].
    exists code. split; [done|]. intros ->. by rewrite Hl in Hne.
  - intros (code & Hcode & Hne). revert label code Hcode Hne.
    change (map_Forall (fun label code => code ≠ 0 → label ∈ order)
                       condition_mapping).
    apply (bool_decide_unpack _). vm_compute. exact I.
Qed.

(** ** The plot palette *)

Lemma custom_palette_cons {A} (x y : A) (light dark : list A) :
  custom_palette (x :: light) (y :: dark)
  = x :: y :: custom_palette light dark.
Proof. reflexivity. Qed.

(** X21.  [custom_palette] interleaves the two palettes: its entries [2i]
    and [2i+1] are entry [i] of the light and of the dark palette, and it
    stops with the shorter of the two. *)
Theorem custom_palette_interleaves {A} (light dark : list A) :
  length (custom_palette light dark)
  = (2 * min (length light) (length dark))%nat
  ∧ ∀ (i : nat) (x y : A),
      light !! i = Some x → dark !! i = Some y →
      custom_palette light dark !! (2 * i)%nat = Some x
      ∧ custom_palette light dark !! (2 * i + 1)%nat = Some y.
Proof.
  split.
  - revert dark. induction light as [|x light IH]; intros [|y dark];
      try done.
    rewrite custom_palette_cons. cbn [length Nat.min]. rewrite IH. lia.
  - revert dark. induction light as [|x0 light IH]; intros [|y0 dark] i x y;
      try done.
    rewrite custom_palette_cons. destruct i as [|i].
    + by intros [= <-] [= <-].
    + intros Hx Hy. cbn in Hx, Hy.
      replace (2 * S i)%nat with (S (S (2 * i))) by lia.
      replace (S (S (2 * i)) + 1)%nat with (S (S (2 * i + 1))) by lia.
      cbn [lookup list_lookup]. by apply IH.
Qed.

Lemma custom_palette_interleaves_witness :
  custom_palette ["l0"; "l1"; "l2"] ["d0"; "d1"; "d2"] !! (2 * 1)%nat
  = Some "l1"
  ∧ custom_palette ["l0"; "l1"; "l2"] ["d0"; "d1"; "d2"] !! (2 * 1 + 1)%nat
    = Some "d1".
Proof.
  apply (proj2 (custom_palette_interleaves ["l0"; "l1"; "l2"]
                                           ["d0"; "d1"; "d2"]) 1%nat);
    reflexivity.
Defined.

(** X22.  With two palettes of five colours, as the module asks seaborn
    for, the colour at a label's position in [order] is the colour of the
    label's activity code: taken from the light palette for a transparent
    label and from the dark palette for an SM label. *)
Theorem order_palette_alignment {A} (light dark : list A)
    (j : nat) (label : string) (code : Z) :
  length light = 5%nat →
  length dark = 5%nat →
  order !! j = Some label →
  condition_mapping !! label = Some code →
  custom_palette light dark !! j
  = (if String.prefix "transparent_" label then light else dark)
      !! Z.to_nat (code - 1).
Proof.
  intros Hl Hd Hj Hcode.
  destruct light as [|l0 [|l1 [|l2 [|l3 [|l4 [|]]]]]]; try discriminate.
  destruct dark as [|d0 [|d1 [|d2 [|d3 [|d4 [|]]]]]]; try discriminate.
  do 10 (destruct j as [|j];
         [cbn in Hj; injection Hj as <-; vm_compute in Hcode;
          injection Hcode as <-; reflexivity|]).
  discriminate.
Qed.

Lemma order_palette_alignment_witness :
  custom_palette ["l1"; "l2"; "l3"; "l4"; "l5"]
                 ["d1"; "d2"; "d3"; "d4"; "d5"] !! 5%nat
  = Some "d3".
Proof.
  apply (order_palette_alignment
           ["l1"; "l2"; "l3"; "l4"; "l5"] ["d1"; "d2"; "d3"; "d4"; "d5"]
           5%nat "SM_RAMPS_DOWN" 3);
    reflexivity.
Defined.
